(** * The event-drop processor of gnmic: [Drop.Init], [Drop.Apply], [shift]

    A shallow embedding of the Go source (package [event_drop]) and the
    properties of its filtering engine and of its in-place compaction.

    Conventions of the embedding.
    - A Go [int] is a [Z].  The indices that the code computes stay inside
      the range of a slice length, so no wrap-around arises; the theorems on
      [shift] hold for every [Z], hence for every 64-bit [int].
    - A Go pair [(T, error)] is a [result T]: the code tests [err != nil]
      before it looks at the value.  A method that writes to its receiver
      and returns an [error] gives the receiver as the call leaves it, with
      the error ([None] is [nil]).
    - A Go slice is a window on a backing array ([slice]): the window and the
      cells of the array behind it, so that the in-place writes of [copy]
      and the re-slicing [es[:len(es)-1]] are modelled as such.
    - A pointer to an event is the event, or [None] for [nil]: the code
      neither compares pointers nor writes through them.
    - A run-time panic is [None] in an [option] result.
    - A Go [map] that the code ranges over is the list of its entries in the
      order of that iteration (Go leaves the order unspecified; the
      theorems hold for every list, so for every order).
    - Calls to the logger only write to an [io.Writer]; they are left out.

    The functions [drops], [marks] and [remove_run] are not in the source:
    they say in closed form what the loops compute, and are proved to
    ([scan_event_spec], [marks_zero], [shift_loop_elems]). *)

From Stdlib Require Import ssreflect ZArith Lia Ascii.
From stdpp Require Import base list strings sorting.

Set Warnings "-rewrite-rw".

Open Scope string_scope.
Open Scope list_scope.

(** ** Go values *)

(** Go's [error] values: only [nil]-ness is ever tested by the code. *)
Definition error := string.

Inductive result (T : Type) : Type :=
| Ok (v : T)
| Err (e : error).
Arguments Ok {T} v.
Arguments Err {T} e.

Definition is_ok {T} (r : result T) : bool :=
  match r with Ok _ => true | Err _ => false end.

(** *** Slices

    [elems] are the cells inside the window (indices [0 .. len-1]), [spare]
    the cells of the backing array after it (up to the capacity). *)
Record slice (T : Type) : Type := Slice { elems : list T; spare : list T }.
Arguments Slice {T} elems spare.
Arguments elems {T} s.
Arguments spare {T} s.

Section Slices.
Context {T : Type}.

(** [len(s)] *)
Definition len (s : slice T) : nat := length (elems s).

(** The cells of the backing array, from the start of the window. *)
Definition backing (s : slice T) : list T := elems s ++ spare s.

(** A window of [n] cells on the array [a]. *)
Definition window (a : list T) (n : nat) : slice T :=
  Slice (take n a) (drop n a).

(** A slice made of a list, with no spare capacity. *)
Definition of_list (l : list T) : slice T := Slice l [].

(** [copy(s[d:], s[d+1:])]: the source window has [len s - (d+1)] cells
    and the destination one more; [copy] moves as many cells as the shorter
    of the two holds, as [memmove] does, and leaves the others as they
    are. *)
Definition copy_tail_left (s : slice T) (d : nat) : slice T :=
  let a := backing s in
  let n := Nat.min (len s - (d + 1)) (len s - d) in
  window (take d a ++ take n (drop (d + 1) a) ++ drop (d + n) a) (len s).

(** [s[:n]] *)
Definition reslice (s : slice T) (n : nat) : slice T :=
  window (backing s) n.
End Slices.

(** ** The data model *)

(** Modelled from the spec: the declaration of [formatters.EventMsg] is not
    part of the sources at hand.  "values: mapping from string key to a
    dynamically-typed scalar (string, number, boolean)"; a value that is none
    of these is [VOther].  The code only asks whether a value is a string. *)
Inductive value : Type :=
| VString (s : string)
| VNumber (n : Z)
| VBool (b : bool)
| VOther.

(** Modelled from the spec: "tags: mapping from string key to string value",
    "values: mapping from string key to a dynamically-typed scalar".  Each
    map is the list of its entries in iteration order. *)
Module formatters.
Record EventMsg : Type := {
  Tags : list (string * string);
  Values : list (string * value)
}.
End formatters.

Abbreviation EventMsg := formatters.EventMsg.

(** The [Drop] struct: the decoded configuration in the exported fields
    and, in the others, what [Init] compiles from it.  The [logger] is left
    out. *)
Record Drop (Regexp Code : Type) : Type := {
  Condition : string;
  TagNames : list string;
  ValueNames : list string;
  Tags : list string;
  Values : list string;
  Debug : bool;
  tagNames : list Regexp;
  valueNames : list Regexp;
  tags : list Regexp;
  values : list Regexp;
  code : option Code
}.
Arguments Condition {Regexp Code} d.
Arguments TagNames {Regexp Code} d.
Arguments ValueNames {Regexp Code} d.
Arguments Tags {Regexp Code} d.
Arguments Values {Regexp Code} d.
Arguments Debug {Regexp Code} d.
Arguments tagNames {Regexp Code} d.
Arguments valueNames {Regexp Code} d.
Arguments tags {Regexp Code} d.
Arguments values {Regexp Code} d.
Arguments code {Regexp Code} d.

(** ** What the processor calls and does not define

    The packages [regexp], [strings] and [gojq], and the helpers
    [DecodeConfig] and [CheckCondition] of package [formatters]. *)
Class Externals : Type := {
  Regexp : Type;
  regexp_Compile : string → result Regexp;
  MatchString : Regexp → string → bool;
  TrimSpace : string → string;
  Query : Type;
  Code : Type;
  gojq_Parse : string → result Query;
  gojq_Compile : Query → result Code;
  RawConfig : Type;
  DecodeConfig :
    RawConfig → Drop Regexp Code → Drop Regexp Code * option error;
  CheckCondition : option Code → EventMsg → result bool
}.

Section Processor.
Context `{X : Externals}.

Abbreviation drop_t := (Drop Regexp Code).

(** *** [Drop.Init] *)

(** [for _, reg := range srcs { re, err := regexp.Compile(reg); if err !=
    nil { return err }; d.field = append(d.field, re) }], with the
    receiver threaded through: on an error the patterns compiled so far
    stay in the field. *)
Fixpoint compile_into (set : list Regexp → drop_t → drop_t)
    (srcs : list string) (acc : list Regexp) (d : drop_t)
  : drop_t * option error :=
  match srcs with
  | [] => (set acc d, None)
  | reg :: srcs' =>
      match regexp_Compile reg with
      | Err e => (set acc d, Some e)
      | Ok re => compile_into set srcs' (acc ++ [re]) d
      end
  end.

Definition set_Condition (c : string) (d : drop_t) : drop_t :=
  {| Condition := c; TagNames := TagNames d; ValueNames := ValueNames d;
     Tags := Tags d; Values := Values d; Debug := Debug d;
     tagNames := tagNames d; valueNames := valueNames d;
     tags := tags d; values := values d; code := code d |}.

Definition set_code (c : option Code) (d : drop_t) : drop_t :=
  {| Condition := Condition d; TagNames := TagNames d;
     ValueNames := ValueNames d; Tags := Tags d; Values := Values d;
     Debug := Debug d;
     tagNames := tagNames d; valueNames := valueNames d;
     tags := tags d; values := values d; code := c |}.

Definition set_tagNames (l : list Regexp) (d : drop_t) : drop_t :=
  {| Condition := Condition d; TagNames := TagNames d;
     ValueNames := ValueNames d; Tags := Tags d; Values := Values d;
     Debug := Debug d;
     tagNames := l; valueNames := valueNames d;
     tags := tags d; values := values d; code := code d |}.

Definition set_tags (l : list Regexp) (d : drop_t) : drop_t :=
  {| Condition := Condition d; TagNames := TagNames d;
     ValueNames := ValueNames d; Tags := Tags d; Values := Values d;
     Debug := Debug d;
     tagNames := tagNames d; valueNames := valueNames d;
     tags := l; values := values d; code := code d |}.

Definition set_valueNames (l : list Regexp) (d : drop_t) : drop_t :=
  {| Condition := Condition d; TagNames := TagNames d;
     ValueNames := ValueNames d; Tags := Tags d; Values := Values d;
     Debug := Debug d;
     tagNames := tagNames d; valueNames := l;
     tags := tags d; values := values d; code := code d |}.

Definition set_values (l : list Regexp) (d : drop_t) : drop_t :=
  {| Condition := Condition d; TagNames := TagNames d;
     ValueNames := ValueNames d; Tags := Tags d; Values := Values d;
     Debug := Debug d;
     tagNames := tagNames d; valueNames := valueNames d;
     tags := tags d; values := l; code := code d |}.

(** The body of [Init] from [d.Condition = strings.TrimSpace(d.Condition)]
    on.  The result is the receiver as the call leaves it and the returned
    [error] ([None] is [nil]).  Both ends of the final logging block
    return [nil]. *)
Definition Init_compile (d : drop_t) : drop_t * option error :=
  let d := set_Condition (TrimSpace (Condition d)) d in
  match gojq_Parse (Condition d) with
  | Err e => (d, Some e)
  | Ok q =>
      match gojq_Compile q with
      | Err e => (set_code None d, Some e)
      | Ok c =>
          let d := set_code (Some c) d in
          match compile_into set_tagNames (TagNames d) [] d with
          | (d, Some e) => (d, Some e)
          | (d, None) =>
          match compile_into set_tags (Tags d) [] d with
          | (d, Some e) => (d, Some e)
          | (d, None) =>
          match compile_into set_valueNames (ValueNames d) [] d with
          | (d, Some e) => (d, Some e)
          | (d, None) =>
          match compile_into set_values (Values d) [] d with
          | (d, Some e) => (d, Some e)
          | (d, None) => (d, None)
          end end end end
      end
  end.

(** [for _, opt := range opts { opt(d) }] *)
Definition apply_options (d : drop_t) (opts : list (drop_t → drop_t))
  : drop_t :=
  foldl (λ d opt, opt d) d opts.

(** [Init]: decode the configuration into the receiver, apply the options,
    then compile. *)
Definition Init (d : drop_t) (cfg : RawConfig) (opts : list (drop_t → drop_t))
  : drop_t * option error :=
  match DecodeConfig cfg d with
  | (d, Some e) => (d, Some e)
  | (d, None) => Init_compile (apply_options d opts)
  end.

(** *** [Drop.Apply]: the scan *)

(** [for _, re := range res { if re.MatchString(s) { toDrop =
    append(toDrop, i); break } }] *)
Fixpoint match_any (res : list Regexp) (s : string) (i : Z)
    (toDrop : list Z) : list Z :=
  match res with
  | [] => toDrop
  | re :: res' =>
      if MatchString re s then toDrop ++ [i]
      else match_any res' s i toDrop
  end.

(** [for _, re := range res { if vs, ok := v.(string); ok { if
    re.MatchString(vs) { toDrop = append(toDrop, i); break } } }] *)
Fixpoint match_any_value (res : list Regexp) (v : value) (i : Z)
    (toDrop : list Z) : list Z :=
  match res with
  | [] => toDrop
  | re :: res' =>
      match v with
      | VString vs =>
          if MatchString re vs then toDrop ++ [i]
          else match_any_value res' v i toDrop
      | _ => match_any_value res' v i toDrop
      end
  end.

(** [for k, v := range e.Values { ... }] *)
Definition scan_values (d : drop_t) (i : Z) (kvs : list (string * value))
    (toDrop : list Z) : list Z :=
  foldl (λ acc kv,
           match_any_value (values d) kv.2 i
             (match_any (valueNames d) kv.1 i acc))
        toDrop kvs.

(** [for k, v := range e.Tags { ... }] *)
Definition scan_tags (d : drop_t) (i : Z) (kvs : list (string * string))
    (toDrop : list Z) : list Z :=
  foldl (λ acc kv,
           match_any (tags d) kv.2 i
             (match_any (tagNames d) kv.1 i acc))
        toDrop kvs.

(** The two regex loops of one event, values first. *)
Definition scan_regexes (d : drop_t) (i : Z) (e : EventMsg)
    (toDrop : list Z) : list Z :=
  scan_tags d i (formatters.Tags e)
    (scan_values d i (formatters.Values e) toDrop).

(** The body of the loop over the batch, for the element [e] at index
    [i]; [None] is the [nil] pointer. *)
Definition scan_event (d : drop_t) (i : Z) (e : option EventMsg)
    (toDrop : list Z) : list Z :=
  match e with
  | None => toDrop
  | Some e =>
      if bool_decide (Condition d ≠ "") then
        match CheckCondition (code d) e with
        | Err _ => toDrop
        | Ok true => toDrop ++ [i]
        | Ok false => scan_regexes d i e toDrop
        end
      else scan_regexes d i e toDrop
  end.

(** [for i, e := range es { ... }], from index [i] on. *)
Fixpoint scan (d : drop_t) (i : Z) (es : list (option EventMsg))
    (toDrop : list Z) : list Z :=
  match es with
  | [] => toDrop
  | e :: es' => scan d (i + 1)%Z es' (scan_event d i e toDrop)
  end.
End Processor.

(** *** [shift] *)

Section Shift.
Context {T : Type}.

(** [dropIndexes[i], dropIndexes[j] = dropIndexes[j], dropIndexes[i]] *)
Definition swap (l : list Z) (i j : nat) : list Z :=
  match l !! i, l !! j with
  | Some x, Some y => <[j := x]> (<[i := y]> l)
  | _, _ => l
  end.

(** [for i, j := 0, len(dropIndexes)-1; i < j; i, j = i+1, j-1 { swap }];
    every turn of the loop takes one unit of [fuel]. *)
Fixpoint reverse_loop (fuel : nat) (i j : Z) (l : list Z) : list Z :=
  match fuel with
  | O => l
  | S fuel' =>
      if (i <? j)%Z then
        reverse_loop fuel' (i + 1)%Z (j - 1)%Z
          (swap l (Z.to_nat i) (Z.to_nat j))
      else l
  end.

Definition reverse_in_place (l : list Z) : list Z :=
  reverse_loop (length l) 0%Z (Z.of_nat (length l) - 1)%Z l.

(** One turn of the second loop, for an index below the length:
    [copy(es[dropIndex:], es[dropIndex+1:]); es = es[:len(es)-1]].
    Slicing at a negative index panics. *)
Definition remove_at (es : slice T) (dropIndex : Z) : option (slice T) :=
  if (dropIndex <? 0)%Z then None
  else
    let es' := copy_tail_left es (Z.to_nat dropIndex) in
    Some (reslice es' (len es' - 1)).

(** [for _, dropIndex := range dropIndexes { if dropIndex < len(es) { ...;
    continue }; break }; return es] *)
Fixpoint shift_loop (es : slice T) (dropIndexes : list Z)
  : option (slice T) :=
  match dropIndexes with
  | [] => Some es
  | dropIndex :: rest =>
      if (dropIndex <? Z.of_nat (len es))%Z then
        match remove_at es dropIndex with
        | None => None
        | Some es' => shift_loop es' rest
        end
      else Some es
  end.

Definition shift (es : slice T) (dropIndexes : list Z) : option (slice T) :=
  shift_loop es (reverse_in_place dropIndexes).
End Shift.

Section Apply.
Context `{X : Externals}.

(** [Apply]: scan the batch, return it as it is when nothing was marked,
    compact it otherwise. *)
Definition Apply (d : Drop Regexp Code) (es : slice (option EventMsg))
  : option (slice (option EventMsg)) :=
  let toDrop := scan d 0%Z (elems es) [] in
  if Nat.eqb (length toDrop) 0 then Some es else shift es toDrop.
End Apply.

(** ** The decision taken on one event

    Whether the scan marks an event at all, read off the loops above: the
    condition decides when it is set and evaluates without error, to drop
    when true and to pass on to the regexes when false; an evaluation error
    leaves the event unmarked; without a condition the regexes decide. *)

Section Decision.
Context `{X : Externals}.

Definition any_match (res : list Regexp) (s : string) : bool :=
  existsb (λ re, MatchString re s) res.

Definition any_match_value (res : list Regexp) (v : value) : bool :=
  match v with
  | VString vs => any_match res vs
  | _ => false
  end.

Definition regex_hit (d : Drop Regexp Code) (e : EventMsg) : bool :=
  existsb (λ kv, any_match (valueNames d) kv.1
                 || any_match_value (values d) kv.2) (formatters.Values e)
  || existsb (λ kv, any_match (tagNames d) kv.1
                    || any_match (tags d) kv.2) (formatters.Tags e).

Definition drops (d : Drop Regexp Code) (e : EventMsg) : bool :=
  if bool_decide (Condition d ≠ "") then
    match CheckCondition (code d) e with
    | Err _ => false
    | Ok true => true
    | Ok false => regex_hit d e
    end
  else regex_hit d e.

(** How many times the scan appends the index of one element: once for
    each key and once for each value that some pattern matches. *)
Definition regex_marks (d : Drop Regexp Code) (e : EventMsg) : nat :=
  (sum_list
     ((λ kv, Nat.b2n (any_match (valueNames d) kv.1)
             + Nat.b2n (any_match_value (values d) kv.2))%nat
        <$> formatters.Values e)
   + sum_list
       ((λ kv, Nat.b2n (any_match (tagNames d) kv.1)
               + Nat.b2n (any_match (tags d) kv.2))%nat
          <$> formatters.Tags e))%nat.

Definition marks (d : Drop Regexp Code) (oe : option EventMsg) : nat :=
  match oe with
  | None => 0
  | Some e =>
      if bool_decide (Condition d ≠ "") then
        match CheckCondition (code d) e with
        | Err _ => 0
        | Ok true => 1
        | Ok false => regex_marks d e
        end
      else regex_marks d e
  end.

(** An element of a batch that the scan leaves unmarked: a [nil] pointer
    or an event on which [drops] is false. *)
Definition unmarked (d : Drop Regexp Code) (oe : option EventMsg)
  : bool :=
  match oe with
  | None => true
  | Some e => negb (drops d e)
  end.


Definition is_string (v : value) : bool :=
  match v with VString _ => true | _ => false end.

(** Whether the parser and the compiler of queries accept the trimmed
    condition, and whether [regexp.Compile] accepts a pattern. *)
Definition condition_compiles (d : Drop Regexp Code) : bool :=
  match gojq_Parse (TrimSpace (Condition d)) with
  | Err _ => false
  | Ok q => is_ok (gojq_Compile q)
  end.

Definition compiles (src : string) : bool := is_ok (regexp_Compile src).

Definition pattern_sources (d : Drop Regexp Code) : list string :=
  TagNames d ++ Tags d ++ ValueNames d ++ Values d.

(** Every compiled list holds the compiled form of its source list, entry
    by entry. *)
Definition compiled_from (srcs : list string) (res : list Regexp) : Prop :=
  Forall2 (λ src re, regexp_Compile src = Ok re) srcs res.

Definition fully_compiled (d : Drop Regexp Code) : Prop :=
  compiled_from (TagNames d) (tagNames d)
  ∧ compiled_from (Tags d) (tags d)
  ∧ compiled_from (ValueNames d) (valueNames d)
  ∧ compiled_from (Values d) (values d)
  ∧ ∃ q c, gojq_Parse (Condition d) = Ok q ∧ gojq_Compile q = Ok c
           ∧ code d = Some c.
End Decision.

(** The window that [shift_loop] leaves, computed on the list of its
    cells. *)
Fixpoint remove_run {T} (l : list T) (dropIndexes : list Z)
  : option (list T) :=
  match dropIndexes with
  | [] => Some l
  | dropIndex :: rest =>
      if (dropIndex <? Z.of_nat (length l))%Z then
        if (dropIndex <? 0)%Z then None
        else remove_run (delete (Z.to_nat dropIndex) l) rest
      else Some l
  end.


(** ** A concrete instance of the externals, for examples

    Patterns made of letters, digits and [_] only: Go's [regexp] compiles
    such a pattern to a matcher that finds the pattern anywhere in the
    subject.  The instance answers with an error outside this fragment, which
    is where the unbalanced ["("] of the examples falls.  Conditions are the
    jq programs [true], [false] and [error] (which raises at run time), and
    the empty program when [accept_empty] is set. *)
Module Literal.

Definition is_word_char (c : Ascii.ascii) : bool :=
  let n := Ascii.nat_of_ascii c in
  (Nat.leb 48 n && Nat.leb n 57) || (Nat.leb 65 n && Nat.leb n 90)
  || (Nat.leb 97 n && Nat.leb n 122) || Nat.eqb n 95.

Fixpoint all_word_chars (s : string) : bool :=
  match s with
  | EmptyString => true
  | String c s' => is_word_char c && all_word_chars s'
  end.

Definition compile (s : string) : result string :=
  if all_word_chars s then Ok s
  else Err "error parsing regexp".

Fixpoint contains (re s : string) : bool :=
  if String.prefix re s then true
  else match s with
       | EmptyString => false
       | String _ s' => contains re s'
       end.

Definition is_space (c : Ascii.ascii) : bool :=
  let n := Ascii.nat_of_ascii c in
  (Nat.leb 9 n && Nat.leb n 13) || Nat.eqb n 32.

Fixpoint trim_left (s : string) : string :=
  match s with
  | EmptyString => EmptyString
  | String c s' => if is_space c then trim_left s' else s
  end.

Fixpoint trim_right (s : string) : string :=
  match s with
  | EmptyString => EmptyString
  | String c s' =>
      match trim_right s' with
      | EmptyString => if is_space c then EmptyString
                       else String c EmptyString
      | t => String c t
      end
  end.

Definition trim (s : string) : string := trim_right (trim_left s).

Definition parse (accept_empty : bool) (s : string) : result string :=
  if bool_decide (s = "true") || bool_decide (s = "false")
     || bool_decide (s = "error")
     || (accept_empty && bool_decide (s = ""))
  then Ok s
  else Err "unexpected token".

Definition check (c : option string) (e : EventMsg) : result bool :=
  match c with
  | Some c =>
      if bool_decide (c = "true") then Ok true
      else if bool_decide (c = "false") then Ok false
      else Err "unexpected condition return type"
  | None => Err "no condition"
  end.

(** The configuration as written by the operator: the exported fields. *)
Definition decode (cfg d : Drop string string)
  : Drop string string * option error :=
  ({| Condition := Condition cfg; TagNames := TagNames cfg;
      ValueNames := ValueNames cfg; Tags := Tags cfg;
      Values := Values cfg; Debug := Debug cfg;
      tagNames := tagNames d; valueNames := valueNames d;
      tags := tags d; values := values d; code := code d |},
   None).

Definition engine (accept_empty : bool) : Externals :=
  {| Regexp := string;
     regexp_Compile := compile;
     MatchString := contains;
     TrimSpace := trim;
     Query := string;
     Code := string;
     gojq_Parse := parse accept_empty;
     gojq_Compile := Ok;
     RawConfig := Drop string string;
     DecodeConfig := decode;
     CheckCondition := check |}.

(** A configuration with the given condition and patterns. *)
Definition config (cond : string) (tag_names value_names tag_values
                                   value_values : list string)
  : Drop string string :=
  {| Condition := cond; TagNames := tag_names; ValueNames := value_names;
     Tags := tag_values; Values := value_values; Debug := false;
     tagNames := []; valueNames := []; tags := []; values := [];
     code := None |}.

(** The zero value of the struct, on which [Init] is called. *)
Definition zero : Drop string string := config "" [] [] [] [].

(** The processor that [Init] leaves for a configuration. *)
Definition processor (accept_empty : bool) (cfg : Drop string string)
  : Drop string string :=
  (@Init (engine accept_empty) zero cfg []).1.

End Literal.

(** ** Examples on the literal engine *)

Module Examples.
Import Literal.

(** [tag-names: ["debug"], tags: ["on"]] *)
Definition debug_on : Drop string string :=
  processor true (config "" ["debug"] [] ["on"] []).

(** [tag-names: ["debug"]] *)
Definition debug_only : Drop string string :=
  processor true (config "" ["debug"] [] [] []).

(** [condition: "error", tag-names: ["debug"]] *)
Definition failing_condition : Drop string string :=
  processor true (config "error" ["debug"] [] [] []).

(** [values: ["42"]] *)
Definition value_42 : Drop string string :=
  processor true (config "" [] [] [] ["42"]).

Definition event (tags : list (string * string))
    (values : list (string * value)) : EventMsg :=
  {| formatters.Tags := tags; formatters.Values := values |}.

Definition site_a : EventMsg := event [("site", "a")] [].
Definition site_b : EventMsg := event [("site", "b")] [].
Definition debug_off : EventMsg := event [("debug_level", "off")] [].
Definition debug_level_on : EventMsg := event [("debug_level", "on")] [].
Definition number_42 : EventMsg := event [] [("counter", VNumber 42)].
Definition string_42 : EventMsg := event [] [("counter", VString "42")].
End Examples.

(** ** Closed forms for the further properties *)

(** The cells of [l] whose position is not among [idxs], in order. *)
Definition remaining {T} (l : list T) (idxs : list Z) : list T :=
  (λ p, p.2) <$> filter (λ p, Z.of_nat p.1 ∉ idxs) (imap (λ i x, (i, x)) l).

Section InitClosedForms.
Context `{X : Externals}.

(** The error of the first source that [regexp.Compile] rejects. *)
Fixpoint first_error (srcs : list string) : option error :=
  match srcs with
  | [] => None
  | src :: srcs' =>
      match regexp_Compile src with
      | Err e => Some e
      | Ok _ => first_error srcs'
      end
  end.

(** The condition is set and evaluates to true on the event. *)
Definition condition_holds (d : Drop Regexp Code) (e : EventMsg) : bool :=
  bool_decide (Condition d ≠ "")
  && match CheckCondition (code d) e with
     | Ok true => true
     | _ => false
     end.

(** Two receivers with the same exported fields. *)
Definition same_config (d d' : Drop Regexp Code) : Prop :=
  Condition d = Condition d' ∧ TagNames d = TagNames d'
  ∧ ValueNames d = ValueNames d' ∧ Tags d = Tags d'
  ∧ Values d = Values d' ∧ Debug d = Debug d'.
End InitClosedForms.

(** ** The capabilities command: [printCapResponse]

    What the function prints is the list of the texts it hands to
    [fmt.Printf] and [fmt.Println], one entry for each call; the standard
    output receives them one after the other.  A [nil] response is [None];
    reading a field of it panics, before anything of that call is
    printed. *)
Module cmd.

(** The configuration store [viper], the helper [indent] of this package,
    [prototext.Format], and the generated types of the gNMI protocol with
    their getters. *)
Class Externals : Type := {
  viper_GetStringSlice : string → list string;
  viper_GetBool : string → bool;
  viper_GetString : string → string;
  ModelData : Type;
  GetName : ModelData → string;
  GetOrganization : ModelData → string;
  GetVersion : ModelData → string;
  Encoding : Type;
  Encoding_String : Encoding → string
}.

Record CapabilityResponse `{Externals} : Type := {
  SupportedModels : list ModelData;
  SupportedEncodings : list Encoding;
  GNMIVersion : string
}.

(** The line feed. *)
Definition nl : string := String "010"%char EmptyString.

Section Print.
Context `{E : Externals}.
Context (indent : string → string → string).
Context (prototext_Format : option CapabilityResponse → string).

(** [printPrefix], as the first lines of the function set it. *)
Definition prefix_for (address : string) : string :=
  if Nat.ltb 1 (length (viper_GetStringSlice "address"))
     && negb (viper_GetBool "no-prefix")
  then "[" +:+ address +:+ "] "
  else "".

Definition printCapResponse (r : option CapabilityResponse)
    (address : string) : option (list string) :=
  let printPrefix := prefix_for address in
  if bool_decide (viper_GetString "format" = "textproto") then
    Some [indent printPrefix (prototext_Format r) +:+ nl]
  else
    match r with
    | None => None
    | Some r =>
        let version := printPrefix +:+ "gNMI version: " +:+ GNMIVersion r
                       +:+ nl in
        if viper_GetBool "version" then Some [version]
        else
          Some ([version]
                ++ [printPrefix +:+ "supported models:" +:+ nl]
                ++ ((λ sm, printPrefix +:+ "  - " +:+ GetName sm +:+ ", "
                           +:+ GetOrganization sm +:+ ", "
                           +:+ GetVersion sm +:+ nl)
                      <$> SupportedModels r)
                ++ [printPrefix +:+ "supported encodings:" +:+ nl]
                ++ ((λ se, printPrefix +:+ "  - " +:+ Encoding_String se
                           +:+ nl)
                      <$> SupportedEncodings r)
                ++ [nl])
    end.
End Print.
End cmd.

(** Two targets, the plain format, and a response with one model and two
    encodings. *)
Module CmdExamples.

Definition two_targets : cmd.Externals :=
  {| cmd.viper_GetStringSlice key :=
       if bool_decide (key = "address") then ["r1:57400"; "r2:57400"] else [];
     cmd.viper_GetBool _ := false;
     cmd.viper_GetString _ := "";
     cmd.ModelData := string * string * string;
     cmd.GetName m := m.1.1;
     cmd.GetOrganization m := m.1.2;
     cmd.GetVersion m := m.2;
     cmd.Encoding := string;
     cmd.Encoding_String s := s |}.

Definition one_target : cmd.Externals :=
  {| cmd.viper_GetStringSlice key :=
       if bool_decide (key = "address") then ["r1:57400"] else [];
     cmd.viper_GetBool _ := false;
     cmd.viper_GetString _ := "";
     cmd.ModelData := string * string * string;
     cmd.GetName m := m.1.1;
     cmd.GetOrganization m := m.1.2;
     cmd.GetVersion m := m.2;
     cmd.Encoding := string;
     cmd.Encoding_String s := s |}.

Definition models : list (string * string * string) :=
  [("openconfig-interfaces", "OpenConfig working group", "2.4.3")].

Definition encodings : list string := ["JSON"; "JSON_IETF"].

Definition response_two : option (@cmd.CapabilityResponse two_targets) :=
  Some {| cmd.SupportedModels := models : list (@cmd.ModelData two_targets);
          cmd.SupportedEncodings := encodings;
          cmd.GNMIVersion := "0.7.0" |}.

Definition response_one : option (@cmd.CapabilityResponse one_target) :=
  Some {| cmd.SupportedModels := models : list (@cmd.ModelData one_target);
          cmd.SupportedEncodings := encodings;
          cmd.GNMIVersion := "0.7.0" |}.

(** Stand-ins for [indent] and [prototext.Format], which the plain format
    does not call. *)
Definition indent (prefix s : string) : string := prefix +:+ s.

Definition format `{E : cmd.Externals} (r : option cmd.CapabilityResponse)
  : string := "".
End CmdExamples.

(** ** [Drop.Apply] with its calls to the logger

    The scan once more, now with the messages that it hands to
    [d.logger.Printf]: a message is the format of the call with its
    arguments.  Whether they reach a writer is the logger's business. *)

Inductive log_entry (Regexp : Type) : Type :=
| ConditionCheckFailed (err : error)
| ValueNameMatched (k : string) (re : Regexp)
| ValueMatched (v : value) (re : Regexp)
| TagNameMatched (k : string) (re : Regexp)
| TagMatched (v : string) (re : Regexp).
Arguments ConditionCheckFailed {Regexp} err.
Arguments ValueNameMatched {Regexp} k re.
Arguments ValueMatched {Regexp} v re.
Arguments TagNameMatched {Regexp} k re.
Arguments TagMatched {Regexp} v re.

Section Logging.
Context `{X : Externals}.

Abbreviation scan_state := (list Z * list (log_entry Regexp))%type.

(** [for _, re := range res { if re.MatchString(s) { d.logger.Printf(...,
    s, re.String()); toDrop = append(toDrop, i); break } }] *)
Fixpoint match_any_log (msg : string → Regexp → log_entry Regexp)
    (res : list Regexp) (s : string) (i : Z) (st : scan_state)
  : scan_state :=
  match res with
  | [] => st
  | re :: res' =>
      if MatchString re s then (st.1 ++ [i], st.2 ++ [msg s re])
      else match_any_log msg res' s i st
  end.

Fixpoint match_any_value_log (res : list Regexp) (v : value) (i : Z)
    (st : scan_state) : scan_state :=
  match res with
  | [] => st
  | re :: res' =>
      match v with
      | VString vs =>
          if MatchString re vs then (st.1 ++ [i], st.2 ++ [ValueMatched v re])
          else match_any_value_log res' v i st
      | _ => match_any_value_log res' v i st
      end
  end.

Definition scan_values_log (d : Drop Regexp Code) (i : Z)
    (kvs : list (string * value)) (st : scan_state) : scan_state :=
  foldl (λ st kv,
           match_any_value_log (values d) kv.2 i
             (match_any_log ValueNameMatched (valueNames d) kv.1 i st))
        st kvs.

Definition scan_tags_log (d : Drop Regexp Code) (i : Z)
    (kvs : list (string * string)) (st : scan_state) : scan_state :=
  foldl (λ st kv,
           match_any_log TagMatched (tags d) kv.2 i
             (match_any_log TagNameMatched (tagNames d) kv.1 i st))
        st kvs.

Definition scan_regexes_log (d : Drop Regexp Code) (i : Z) (e : EventMsg)
    (st : scan_state) : scan_state :=
  scan_tags_log d i (formatters.Tags e)
    (scan_values_log d i (formatters.Values e) st).

Definition scan_event_log (d : Drop Regexp Code) (i : Z)
    (e : option EventMsg) (st : scan_state) : scan_state :=
  match e with
  | None => st
  | Some e =>
      if bool_decide (Condition d ≠ "") then
        match CheckCondition (code d) e with
        | Err err => (st.1, st.2 ++ [ConditionCheckFailed err])
        | Ok true => (st.1 ++ [i], st.2)
        | Ok false => scan_regexes_log d i e st
        end
      else scan_regexes_log d i e st
  end.

Fixpoint scan_log (d : Drop Regexp Code) (i : Z)
    (es : list (option EventMsg)) (st : scan_state) : scan_state :=
  match es with
  | [] => st
  | e :: es' => scan_log d (i + 1)%Z es' (scan_event_log d i e st)
  end.

(** The messages of a run that report a match. *)
Definition is_match_entry (m : log_entry Regexp) : bool :=
  match m with
  | ConditionCheckFailed _ => false
  | _ => true
  end.

(** How many messages of a log report a match, and how many a failed
    evaluation of the condition. *)
Definition matches_in (log : list (log_entry Regexp)) : nat :=
  length (filter (λ m, is_match_entry m = true) log).

Definition failures_in (log : list (log_entry Regexp)) : nat :=
  length (filter (λ m, is_match_entry m = false) log).

(** The evaluation of the condition fails on the element. *)
Definition condition_fails (d : Drop Regexp Code) (oe : option EventMsg)
  : bool :=
  match oe with
  | None => false
  | Some e =>
      bool_decide (Condition d ≠ "")
      && match CheckCondition (code d) e with
         | Err _ => true
         | Ok _ => false
         end
  end.
End Logging.

(** * Properties *)

(** ** Slices and the removal of one cell *)

Section SliceFacts.
Context {T : Type}.
Implicit Types (es : slice T) (l : list T).

Lemma len_of_list l : len (of_list l) = length l.
Proof. done. Qed.

Lemma backing_length es :
  length (backing es) = (len es + length (spare es))%nat.
Proof. by rewrite /backing /len length_app. Qed.

(** Inside the window, [copy] and the re-slicing delete cell [d]; the cell
    that leaves the window keeps the old last element. *)
Lemma remove_at_spec es (d : Z) :
  (0 ≤ d < Z.of_nat (len es))%Z →
  remove_at es d =
    Some (Slice (delete (Z.to_nat d) (elems es))
                (drop (len es - 1) (elems es) ++ spare es)).
Proof.
  intros [Hd0 Hdn]. rewrite /remove_at.
  destruct (Z.ltb_spec d 0) as [?|_]; [lia|].
  set (k := Z.to_nat d). assert (Hk : (k < len es)%nat) by lia.
  clearbody k. f_equal.
  rewrite /copy_tail_left /reslice /window /backing /len /=.
  rewrite /len in Hk. set (a := elems es) in *. set (sp := spare es).
  assert (Hmin : Nat.min (length a - (k + 1)) (length a - k)
                 = (length a - (k + 1))%nat) by lia.
  rewrite Hmin.
  assert (Hmid : take (length a - (k + 1)) (drop (k + 1) (a ++ sp))
                 = drop (S k) a).
  { rewrite drop_app_le; [lia|]. rewrite take_app_le.
    - rewrite length_drop. lia.
    - rewrite Nat.add_1_r. apply take_ge. rewrite length_drop. lia. }
  assert (Hpre : take k (a ++ sp) = take k a) by (apply take_app_le; lia).
  assert (Hpost : drop (k + (length a - (k + 1))) (a ++ sp)
                  = drop (length a - 1) a ++ sp).
  { replace (k + (length a - (k + 1)))%nat with (length a - 1)%nat by lia.
    apply drop_app_le. lia. }
  rewrite Hmid Hpre Hpost.
  set (m := take k a ++ drop (S k) a).
  assert (Hm : length m = (length a - 1)%nat).
  { rewrite /m length_app length_take length_drop. lia. }
  assert (Hall : length (take (length a)
                   (take k a ++ drop (S k) a ++ drop (length a - 1) a ++ sp))
                 = length a).
  { rewrite length_take !length_app length_take !length_drop. lia. }
  rewrite Hall.
  rewrite take_drop.
  rewrite (app_assoc (take k a)). fold m.
  rewrite -Hm take_app_length drop_app_length.
  by rewrite /m delete_take_drop.
Qed.

Lemma remove_at_negative es (d : Z) : (d < 0)%Z → remove_at es d = None.
Proof.
  intros Hd. rewrite /remove_at. by destruct (Z.ltb_spec d 0); [|lia].
Qed.

Lemma remove_at_len es es' (d : Z) :
  (d < Z.of_nat (len es))%Z → remove_at es d = Some es' →
  len es' = (len es - 1)%nat ∧ (0 ≤ d)%Z
  ∧ elems es' = delete (Z.to_nat d) (elems es)
  ∧ length (backing es') = length (backing es).
Proof.
  intros Hd Hr. destruct (Z.ltb_spec d 0) as [Hneg|Hpos].
  { by rewrite remove_at_negative in Hr. }
  rewrite remove_at_spec in Hr; [lia|]. injection Hr as <-.
  rewrite /len /backing /= !length_app length_delete.
  { apply lookup_lt_is_Some. rewrite /len in Hd. lia. }
  rewrite length_drop. rewrite /len in Hd. repeat split; lia.
Qed.
End SliceFacts.

(** ** The reversal of the drop indexes *)

Section Reverse.
Implicit Types (l pre mid post : list Z).

Lemma swap_ends pre mid post (x y : Z) :
  swap (pre ++ x :: mid ++ y :: post)
       (length pre) (length pre + S (length mid))
  = pre ++ y :: mid ++ x :: post.
Proof.
  rewrite /swap.
  rewrite list_lookup_middle; [done|].
  assert (Hj : (pre ++ x :: mid ++ y :: post)
                 !! (length pre + S (length mid))%nat = Some y).
  { rewrite lookup_app_r; [lia|].
    replace (length pre + S (length mid) - length pre)%nat
      with (S (length mid)) by lia.
    simpl. by rewrite list_lookup_middle. }
  rewrite Hj.
  rewrite insert_app_r_alt; [lia|]. rewrite Nat.sub_diag /=.
  rewrite insert_app_r_alt; [lia|].
  replace (length pre + S (length mid) - length pre)%nat
    with (S (length mid)) by lia.
  simpl. rewrite insert_app_r_alt; [lia|]. by rewrite Nat.sub_diag.
Qed.

Lemma reverse_loop_spec (fuel : nat) : ∀ pre mid post,
  (length mid ≤ 2 * fuel)%nat →
  reverse_loop fuel (Z.of_nat (length pre))
               (Z.of_nat (length pre + length mid) - 1) (pre ++ mid ++ post)
  = pre ++ reverse mid ++ post.
Proof.
  induction fuel as [|fuel IH]; intros pre mid post Hfuel.
  { destruct mid; [done|simpl in Hfuel; lia]. }
  destruct mid as [|x mid]; simpl.
  { destruct (_ <? _)%Z eqn:E; [apply Z.ltb_lt in E; lia|done]. }
  destruct (decide (mid = [])) as [->|Hne].
  { destruct (_ <? _)%Z eqn:E; [apply Z.ltb_lt in E; simpl in E; lia|done]. }
  destruct (exists_last Hne) as (mid' & y & ->).
  assert (Hmid' : (length mid' ≤ 2 * fuel)%nat).
  { move: Hfuel. rewrite /= length_app /=. lia. }
  rewrite length_app /=.
  destruct (Z.ltb_spec (Z.of_nat (length pre))
             (Z.of_nat (length pre + S (length mid' + 1)) - 1)); [|lia].
  rewrite Nat2Z.id.
  replace (Z.to_nat (Z.of_nat (length pre + S (length mid' + 1)) - 1))
    with (length pre + S (length mid'))%nat by lia.
  rewrite -(app_assoc mid' [y] post) /= swap_ends.
  replace (Z.of_nat (length pre) + 1)%Z
    with (Z.of_nat (length (pre ++ [y]))) by (rewrite length_app /=; lia).
  replace (Z.of_nat (length pre + S (length mid' + 1)) - 1 - 1)%Z
    with (Z.of_nat (length (pre ++ [y]) + length mid') - 1)%Z
    by (rewrite length_app /=; lia).
  replace (pre ++ y :: mid' ++ x :: post)
    with ((pre ++ [y]) ++ mid' ++ x :: post) by by rewrite -app_assoc.
  rewrite IH; [lia|].
  rewrite reverse_cons reverse_app /= -!app_assoc /=. done.
Qed.

(** The swapping loop reverses the list; its fuel is enough. *)
Lemma reverse_in_place_spec l : reverse_in_place l = reverse l.
Proof.
  rewrite /reverse_in_place.
  pose proof (reverse_loop_spec (length l) [] l []) as H.
  rewrite /= !app_nil_r in H. apply H. lia.
Qed.
End Reverse.

(** ** The removal pass *)

Section ShiftFacts.
Context {T : Type}.
Implicit Types (es : slice T) (l : list T) (idxs : list Z).

Lemma shift_loop_elems es idxs :
  elems <$> shift_loop es idxs = remove_run (elems es) idxs.
Proof.
  revert es. induction idxs as [|d idxs IH]; intros es; [done|].
  simpl. fold (len es).
  destruct (Z.ltb_spec d (Z.of_nat (len es))) as [Hlt|Hge]; [|done].
  destruct (Z.ltb_spec d 0) as [Hneg|Hpos].
  { by rewrite remove_at_negative. }
  rewrite remove_at_spec; [lia|]. by rewrite IH.
Qed.

Lemma shift_elems es idxs :
  elems <$> shift es idxs = remove_run (elems es) (reverse idxs).
Proof. by rewrite /shift reverse_in_place_spec shift_loop_elems. Qed.

(** The backing array keeps its size: the pass works in place. *)
Lemma shift_loop_backing es es' idxs :
  shift_loop es idxs = Some es' →
  length (backing es') = length (backing es).
Proof.
  revert es. induction idxs as [|d idxs IH]; intros es; simpl.
  { by intros [= ->]. }
  destruct (Z.ltb_spec d (Z.of_nat (len es))) as [Hlt|Hge].
  2:{ by intros [= ->]. }
  destruct (remove_at es d) as [es1|] eqn:E; [|done].
  intros H. apply IH in H. rewrite H.
  by destruct (remove_at_len es es1 d Hlt E) as (_ & _ & _ & ->).
Qed.

Lemma remove_run_sublist l l' idxs :
  remove_run l idxs = Some l' → l' `sublist_of` l.
Proof.
  revert l. induction idxs as [|d idxs IH]; intros l; simpl.
  { by intros [= ->]. }
  destruct (d <? Z.of_nat (length l))%Z; [|by intros [= ->]].
  destruct (d <? 0)%Z; [done|].
  intros H. apply IH in H. etrans; [exact H|]. apply sublist_delete.
Qed.

(** A panic needs a negative index. *)
Lemma remove_run_total l idxs :
  Forall (λ d, 0 ≤ d)%Z idxs → is_Some (remove_run l idxs).
Proof.
  revert l. induction idxs as [|d idxs IH]; intros l Hall; simpl; [by eexists|].
  inversion Hall as [|?? Hd Hrest]; subst.
  destruct (d <? Z.of_nat (length l))%Z; [|by eexists].
  destruct (Z.ltb_spec d 0); [lia|]. by apply IH.
Qed.

Lemma remove_run_None l idxs :
  remove_run l idxs = None → Exists (λ d, d < 0)%Z idxs.
Proof.
  revert l. induction idxs as [|d idxs IH]; intros l; simpl; [done|].
  destruct (d <? Z.of_nat (length l))%Z; [|done].
  destruct (Z.ltb_spec d 0) as [Hneg|Hpos].
  - intros _. by left.
  - intros H. right. by eapply IH.
Qed.

(** The pass ends at the first index that is not below the current
    length: what comes after it in the pass is not looked at. *)
Lemma shift_loop_stop es es' (d : Z) idxs rest :
  shift_loop es idxs = Some es' → (Z.of_nat (len es') ≤ d)%Z →
  shift_loop es (idxs ++ d :: rest) = Some es'.
Proof.
  revert es. induction idxs as [|x idxs IH]; intros es; simpl.
  { intros [= ->] Hd. by destruct (Z.ltb_spec d (Z.of_nat (len es'))); [lia|]. }
  destruct (x <? Z.of_nat (len es))%Z; [|done].
  destruct (remove_at es x) as [es1|]; [|done]. apply IH.
Qed.

(** When every index of the pass removed a cell, cells appended to the
    window are out of its reach. *)
Lemma remove_run_app l l' tl idxs :
  remove_run l idxs = Some l' →
  (length l' + length idxs = length l)%nat →
  remove_run (l ++ tl) idxs = Some (l' ++ tl).
Proof.
  revert l. induction idxs as [|d idxs IH]; intros l; simpl.
  { by intros [= ->]. }
  destruct (Z.ltb_spec d (Z.of_nat (length l))) as [Hlt|Hge].
  2:{ intros [= ->]. lia. }
  destruct (Z.ltb_spec d 0) as [Hneg|Hpos]; [done|].
  intros Hrun Hlen.
  destruct (Z.ltb_spec d (Z.of_nat (length (l ++ tl)))) as [_|Hge].
  2:{ rewrite length_app in Hge. lia. }
  assert (Hd : (Z.to_nat d < length l)%nat) by lia.
  assert (Hdel : delete (Z.to_nat d) (l ++ tl) = delete (Z.to_nat d) l ++ tl).
  { rewrite !delete_take_drop take_app_le; [lia|].
    rewrite drop_app_le; [lia|]. by rewrite app_assoc. }
  rewrite Hdel. apply IH; [done|].
  rewrite length_delete; [by apply lookup_lt_is_Some|]. lia.
Qed.








End ShiftFacts.

(** ** The scan *)

Section ScanFacts.
Context `{X : Externals}.
Implicit Types (d : Drop Regexp Code) (e : EventMsg)
  (oe : option EventMsg) (es : list (option EventMsg)) (acc : list Z).

Lemma match_any_spec res s (i : Z) acc :
  match_any res s i acc = acc ++ replicate (Nat.b2n (any_match res s)) i.
Proof.
  induction res as [|re res IH]; simpl; [by rewrite app_nil_r|].
  by destruct (MatchString re s).
Qed.

Lemma match_any_value_spec res v (i : Z) acc :
  match_any_value res v i acc
  = acc ++ replicate (Nat.b2n (any_match_value res v)) i.
Proof.
  induction res as [|re res IH]; simpl.
  { destruct v; by rewrite /= app_nil_r. }
  destruct v as [vs| | |]; simpl in *; try done.
  by destruct (MatchString re vs).
Qed.

Lemma scan_values_spec d (i : Z) kvs acc :
  scan_values d i kvs acc
  = acc ++ replicate
             (sum_list
                ((λ kv, Nat.b2n (any_match (valueNames d) kv.1)
                        + Nat.b2n (any_match_value (values d) kv.2))%nat
                   <$> kvs)) i.
Proof.
  rewrite /scan_values. revert acc.
  induction kvs as [|kv kvs IH]; intros acc; simpl; [by rewrite app_nil_r|].
  rewrite IH match_any_value_spec match_any_spec.
  by rewrite -!app_assoc -!replicate_add Nat.add_assoc.
Qed.

Lemma scan_tags_spec d (i : Z) kvs acc :
  scan_tags d i kvs acc
  = acc ++ replicate
             (sum_list
                ((λ kv, Nat.b2n (any_match (tagNames d) kv.1)
                        + Nat.b2n (any_match (tags d) kv.2))%nat
                   <$> kvs)) i.
Proof.
  rewrite /scan_tags. revert acc.
  induction kvs as [|kv kvs IH]; intros acc; simpl; [by rewrite app_nil_r|].
  rewrite IH !match_any_spec.
  by rewrite -!app_assoc -!replicate_add Nat.add_assoc.
Qed.

Lemma scan_regexes_spec d (i : Z) e acc :
  scan_regexes d i e acc = acc ++ replicate (regex_marks d e) i.
Proof.
  rewrite /scan_regexes /regex_marks scan_tags_spec scan_values_spec.
  by rewrite -app_assoc -replicate_add.
Qed.

(** One element appends its index [marks] times. *)
Lemma scan_event_spec d (i : Z) oe acc :
  scan_event d i oe acc = acc ++ replicate (marks d oe) i.
Proof.
  destruct oe as [e|]; simpl; [|by rewrite app_nil_r].
  case_bool_decide; [|apply scan_regexes_spec].
  destruct (CheckCondition (code d) e) as [[|]|];
    [done|apply scan_regexes_spec|by rewrite app_nil_r].
Qed.

Lemma sum_b2n_zero {A} (f g : A → bool) (l : list A) :
  sum_list ((λ x, Nat.b2n (f x) + Nat.b2n (g x))%nat <$> l) = 0%nat
  ↔ existsb (λ x, f x || g x) l = false.
Proof.
  induction l as [|x l IH]; simpl; [done|].
  destruct (f x), (g x); simpl; try (split; [lia|done]); apply IH.
Qed.

Lemma regex_marks_zero d e : regex_marks d e = 0%nat ↔ regex_hit d e = false.
Proof.
  rewrite /regex_marks /regex_hit orb_false_iff -!sum_b2n_zero. lia.
Qed.

(** The scan marks an element exactly when [drops] holds of its event. *)
Lemma marks_zero d oe : marks d oe = 0%nat ↔ unmarked d oe = true.
Proof.
  destruct oe as [e|]; simpl; [|done].
  rewrite /drops negb_true_iff. case_bool_decide; [|apply regex_marks_zero].
  destruct (CheckCondition (code d) e) as [[|]|];
    [done|apply regex_marks_zero|done].
Qed.

Lemma marks_drops d e : (0 < marks d (Some e))%nat ↔ drops d e = true.
Proof.
  destruct (marks_zero d (Some e)) as [H1 H2].
  change (unmarked d (Some e)) with (negb (drops d e)) in H1, H2.
  generalize dependent (marks d (Some e)). intros n H1 H2.
  destruct (drops d e); cbn [negb] in *.
  - split; [done|]. intros _. destruct n; [|lia]. by specialize (H1 eq_refl).
  - split; [|done]. intros Hpos. rewrite H2 in Hpos; [done|lia].
Qed.

Lemma scan_acc d (i : Z) es acc : scan d i es acc = acc ++ scan d i es [].
Proof.
  revert i acc. induction es as [|oe es IH]; intros i acc; simpl.
  { by rewrite app_nil_r. }
  rewrite IH (IH _ (scan_event d i oe [])) !scan_event_spec.
  by rewrite app_assoc.
Qed.

Lemma scan_app d (i : Z) es1 es2 acc :
  scan d i (es1 ++ es2) acc
  = scan d (i + Z.of_nat (length es1)) es2 (scan d i es1 acc).
Proof.
  revert i acc. induction es1 as [|oe es1 IH]; intros i acc.
  { by rewrite /= Z.add_0_r. }
  rewrite length_cons Nat2Z.inj_succ /= IH. f_equal. lia.
Qed.

Lemma scan_snoc d es oe :
  scan d 0 (es ++ [oe]) []
  = scan d 0 es [] ++ replicate (marks d oe) (Z.of_nat (length es)).
Proof. by rewrite scan_app /= scan_event_spec. Qed.

(** What the to-drop list holds: the index of every marked element, and
    nothing else. *)
Lemma elem_of_scan d (i x : Z) es acc :
  x ∈ scan d i es acc
  ↔ x ∈ acc ∨ ∃ (k : nat) oe, es !! k = Some oe ∧ x = (i + Z.of_nat k)%Z
                              ∧ unmarked d oe = false.
Proof.
  revert i acc. induction es as [|oe es IH]; intros i acc; simpl.
  { split; [by left|]. intros [?|(k & ? & Hk & _)]; [done|].
    by rewrite lookup_nil in Hk. }
  rewrite IH scan_event_spec elem_of_app elem_of_replicate. split.
  - intros [[Hacc|[-> Hm]]|(k & oe' & Hk & -> & Hu)].
    + by left.
    + right. exists 0%nat, oe. split_and!; [done|lia|].
      destruct (unmarked d oe) eqn:E; [|done].
      apply marks_zero in E. lia.
    + right. exists (S k), oe'. split_and!; [done|lia|done].
  - intros [Hacc|(k & oe' & Hk & -> & Hu)]; [by left; left|].
    destruct k as [|k]; simpl in Hk.
    + injection Hk as ->. left; right. split; [lia|].
      intros Hz. apply marks_zero in Hz. congruence.
    + right. exists k, oe'. split_and!; [done|lia|done].
Qed.

Lemma scan_bounds d es :
  Forall (λ x, 0 ≤ x < Z.of_nat (length es))%Z (scan d 0 es []).
Proof.
  apply Forall_forall. intros x [Hx|(k & oe & Hk & -> & _)]%elem_of_scan.
  { by apply elem_of_nil in Hx. }
  apply lookup_lt_Some in Hk. lia.
Qed.

(** Nothing marked: every element is unmarked, and conversely. *)
Lemma scan_nil_iff d es :
  scan d 0 es [] = [] ↔ Forall (λ oe, unmarked d oe = true) es.
Proof.
  split.
  - intros Hnil. apply Forall_lookup. intros k oe Hk.
    destruct (unmarked d oe) eqn:E; [done|].
    assert (Hin : Z.of_nat k ∈ scan d 0 es []).
    { apply elem_of_scan. right. exists k, oe. split_and!; [done|lia|done]. }
    rewrite Hnil in Hin. by apply elem_of_nil in Hin.
  - intros Hall. destruct (scan d 0 es []) as [|x l] eqn:E; [done|].
    assert (Hin : x ∈ scan d 0 es []) by (rewrite E; left).
    apply elem_of_scan in Hin as [Hin|(k & oe & Hk & _ & Hu)].
    { by apply elem_of_nil in Hin. }
    rewrite Forall_lookup in Hall. specialize (Hall k oe Hk). congruence.
Qed.


End ScanFacts.

(** ** [Apply] as a whole *)

Section ApplyFacts.
Context `{X : Externals}.
Implicit Types (d : Drop Regexp Code) (es : slice (option EventMsg)).

Lemma Apply_elems d es :
  elems <$> Apply d es
  = remove_run (elems es) (reverse (scan d 0 (elems es) [])).
Proof.
  rewrite /Apply. destruct (scan d 0 (elems es) []) as [|x l] eqn:E; [done|].
  cbn [length Nat.eqb]. apply shift_elems.
Qed.

(** [Apply] never panics: the indexes it collects are not negative. *)
Lemma Apply_total d es : is_Some (Apply d es).
Proof.
  assert (H : is_Some (elems <$> Apply d es)).
  { rewrite Apply_elems. apply remove_run_total, Forall_reverse.
    eapply Forall_impl; [apply scan_bounds|]. simpl. lia. }
  destruct H as [l Hl]. destruct (Apply d es); [by eexists|done].
Qed.

(** When no index is marked twice, the pass removes the marked elements
    and only them. *)
Lemma remove_run_scan d (l : list (option EventMsg)) :
  NoDup (scan d 0 l []) →
  remove_run l (reverse (scan d 0 l []))
    = Some (filter (λ oe, unmarked d oe = true) l)
  ∧ (length (filter (λ oe, unmarked d oe = true) l)
     + length (scan d 0 l []) = length l)%nat.
Proof.
  induction l as [|oe l IH] using rev_ind; [done|].
  rewrite scan_snoc filter_app length_app. intros Hnd.
  apply NoDup_app in Hnd as (Hnd0 & _ & Hrep).
  destruct (IH Hnd0) as [Hrun Hlen].
  destruct (marks d oe) as [|[|m]] eqn:Em.
  - assert (Hu : unmarked d oe = true) by by apply marks_zero.
    rewrite /= app_nil_r filter_cons_True //= filter_nil.
    split; [|move: Hlen; rewrite ?length_app /=; lia].
    apply remove_run_app; [done|]. rewrite length_reverse. lia.
  - assert (Hu : unmarked d oe ≠ true).
    { intros Hu%marks_zero. lia. }
    rewrite /= reverse_snoc filter_cons_False //= filter_nil app_nil_r.
    split; [|move: Hlen; rewrite ?length_app /=; lia].
    destruct (Z.ltb_spec (Z.of_nat (length l))
                (Z.of_nat (length (l ++ [oe])))) as [_|Hge].
    2:{ rewrite length_app /= in Hge. lia. }
    destruct (Z.ltb_spec (Z.of_nat (length l)) 0) as [?|_]; [lia|].
    rewrite Nat2Z.id delete_take_drop take_app_length.
    rewrite drop_ge; [rewrite length_app /=; lia|]. by rewrite app_nil_r.
  - exfalso. simpl in Hrep. apply NoDup_cons in Hrep as [Hnotin _].
    apply Hnotin. by left.
Qed.

Lemma Apply_filter d es :
  NoDup (scan d 0 (elems es) []) →
  elems <$> Apply d es
    = Some (filter (λ oe, unmarked d oe = true) (elems es)).
Proof. intros Hnd. rewrite Apply_elems. by apply remove_run_scan. Qed.
End ApplyFacts.

(** ** [Init] *)

Section InitFacts.
Context `{X : Externals}.
Implicit Types (d : Drop Regexp Code) (srcs : list string)
  (acc res : list Regexp).

Lemma compiled_from_compiles srcs res :
  compiled_from srcs res → Forall (λ s, compiles s = true) srcs.
Proof.
  induction 1 as [|src re srcs res Hsrc _ IH]; constructor; [|done].
  by rewrite /compiles Hsrc.
Qed.

(** One compilation loop: either every source compiles and the field holds
    them all, or the loop returns at the first failure. *)
Lemma compile_into_cases set srcs acc d :
  (∃ res, compiled_from srcs res
          ∧ compile_into set srcs acc d = (set (acc ++ res) d, None))
  ∨ (∃ res e, Exists (λ s, compiles s = false) srcs
              ∧ compile_into set srcs acc d = (set res d, Some e)).
Proof.
  revert acc. induction srcs as [|src srcs IH]; intros acc; simpl.
  { left. exists []. split; [constructor|by rewrite app_nil_r]. }
  destruct (regexp_Compile src) as [re|e] eqn:E.
  - destruct (IH (acc ++ [re])) as [(res & Hres & ->)|(res & e & Hex & ->)].
    + left. exists (re :: res). split; [by constructor|].
      by rewrite -app_assoc.
    + right. exists res, e. split; [by right|done].
  - right. exists acc, e. split; [|done]. left. by rewrite /compiles E.
Qed.

Lemma Exists_fails_not_Forall srcs :
  Exists (λ s, compiles s = false) srcs →
  Forall (λ s, compiles s = true) srcs → False.
Proof.
  induction 1 as [s srcs Hs|s srcs _ IH]; inversion 1; subst;
    [congruence|by apply IH].
Qed.

(** The loop returns at the first source that does not compile: the field
    holds the patterns before it, and the sources after it play no part. *)
Lemma compile_into_first_failure set pre bad post res acc d (e : error) :
  compiled_from pre res → regexp_Compile bad = Err e →
  compile_into set (pre ++ bad :: post) acc d = (set (acc ++ res) d, Some e).
Proof.
  intros Hpre Hbad. revert acc.
  induction Hpre as [|src re pre res Hsrc _ IH]; intros acc; simpl.
  { by rewrite Hbad app_nil_r. }
  by rewrite Hsrc IH -app_assoc.
Qed.

(** What [Init] leaves and returns: on [nil], a receiver compiled in
    full from a configuration without fault; on an error, a configuration
    with a fault. *)
Lemma Init_compile_cases d :
  match (Init_compile d).2 with
  | None =>
      condition_compiles d = true
      ∧ Forall (λ s, compiles s = true) (pattern_sources d)
      ∧ fully_compiled (Init_compile d).1
      ∧ Condition (Init_compile d).1 = TrimSpace (Condition d)
  | Some _ =>
      condition_compiles d = false
      ∨ Exists (λ s, compiles s = false) (pattern_sources d)
  end.
Proof.
  rewrite /Init_compile /condition_compiles /pattern_sources /=.
  destruct (gojq_Parse (TrimSpace (Condition d))) as [q|e] eqn:Eq;
    [|by left].
  destruct (gojq_Compile q) as [c|e] eqn:Ec; [|by left].
  do 4 (match goal with
        | |- context [compile_into ?set ?srcs ?acc ?d0] =>
            let r := fresh "r" in
            let H := fresh "Hr" in
            let Hex := fresh "Hex" in
            destruct (compile_into_cases set srcs acc d0)
              as [(r & H & ->)|(r & ? & Hex & ->)];
            [simpl|by right; rewrite !Exists_app; tauto]
        end).
  split_and!; [done| |split_and!; try done|done].
  - rewrite !Forall_app.
    split_and!; by eapply compiled_from_compiles.
  - exists q, c. by rewrite Eq.
Qed.

(** The condition is parsed whatever it is, the empty string too. *)
Lemma Init_compile_parse_error d (e : error) :
  gojq_Parse (TrimSpace (Condition d)) = Err e →
  (Init_compile d).2 = Some e.
Proof. intros H. by rewrite /Init_compile /= H. Qed.

Lemma Init_compile_fails d :
  condition_compiles d = false
  ∨ Exists (λ s, compiles s = false) (pattern_sources d) →
  is_Some (Init_compile d).2.
Proof.
  intros Hbad. pose proof (Init_compile_cases d) as H.
  destruct (Init_compile d).2 as [e|]; [by eexists|].
  destruct H as (Hc & Hall & _). destruct Hbad as [Hbad|Hbad].
  - congruence.
  - by destruct (Exists_fails_not_Forall _ Hbad Hall).
Qed.

Lemma Init_compile_succeeds d :
  condition_compiles d = true →
  Forall (λ s, compiles s = true) (pattern_sources d) →
  (Init_compile d).2 = None.
Proof.
  intros Hc Hall. pose proof (Init_compile_cases d) as H.
  destruct (Init_compile d).2 as [e|]; [|done].
  destruct H as [H|H]; [congruence|].
  by destruct (Exists_fails_not_Forall _ H Hall).
Qed.
End InitFacts.

(** * The claims *)

Section BatchClaims.
Context `{X : Externals}.
Implicit Types (d : Drop Regexp Code) (es : slice (option EventMsg)).

(** Claim C6.  When no event of the batch matches any criterion, [Apply]
    returns the slice it was given: the same window on the same backing
    array, whose cells are untouched. *)
Theorem Apply_identity_when_nothing_matches d es :
  Forall (λ oe, unmarked d oe = true) (elems es) →
  Apply d es = Some es.
Proof.
  intros Hall. apply scan_nil_iff in Hall. by rewrite /Apply Hall.
Qed.


(** Claim C10.  Whatever the batch, [Apply] returns a subsequence of it;
    whatever the slice and the list of indexes, duplicates and indexes
    beyond the length included, [shift] returns a subsequence of the slice,
    unless an index below zero makes the slicing panic.  A subsequence
    keeps the relative order, holds no element more often than the input,
    and is no longer. *)
Theorem Apply_and_shift_return_subsequences :
  (∀ d es, ∃ out, Apply d es = Some out
                  ∧ elems out `sublist_of` elems es
                  ∧ elems out ⊆+ elems es
                  ∧ (len out ≤ len es)%nat)
  ∧ (∀ (T : Type) (s : slice T) (dropIndexes : list Z),
       match shift s dropIndexes with
       | Some out => elems out `sublist_of` elems s
                     ∧ elems out ⊆+ elems s
                     ∧ (len out ≤ len s)%nat
                     ∧ length (backing out) = length (backing s)
       | None => Exists (λ i, i < 0)%Z dropIndexes
       end)
  ∧ (∀ (T : Type) (s : slice T) (dropIndexes : list Z),
       Forall (λ i, 0 ≤ i)%Z dropIndexes → is_Some (shift s dropIndexes)).
Proof.
  split_and!.
  - intros d es. destruct (Apply_total d es) as [out Hout]. exists out.
    assert (Hsub : elems out `sublist_of` elems es).
    { apply (remove_run_sublist _ _ (reverse (scan d 0 (elems es) []))).
      by rewrite -Apply_elems Hout. }
    split_and!; [done|done|by apply sublist_submseteq|].
    by apply sublist_length.
  - intros T s idxs. pose proof (shift_elems s idxs) as He.
    destruct (shift s idxs) as [out|] eqn:E; simpl in He.
    + symmetry in He. apply remove_run_sublist in He.
      split_and!; [done|by apply sublist_submseteq|by apply sublist_length|].
      by eapply shift_loop_backing.
    + symmetry in He. apply remove_run_None in He.
      apply Exists_exists in He as (i & Hi & Hneg). apply Exists_exists.
      exists i. split; [by apply elem_of_reverse|done].
  - intros T s idxs Hall. pose proof (shift_elems s idxs) as He.
    destruct (remove_run_total (elems s) (reverse idxs)) as [l Hl].
    { by apply Forall_reverse. }
    rewrite Hl in He. destruct (shift s idxs); [by eexists|done].
Qed.
End BatchClaims.

Section ShiftClaims.
Context {T : Type}.

(** Claim C5, as the code has it.  The pass goes through the list from
    its end to its start.  The first index it meets that is not below the
    current length ends the pass: there is no out-of-bounds failure, the
    removals made so far stand, and none of the indexes listed before that
    one is removed, within bounds or not. *)
Theorem shift_stops_at_first_index_beyond_length
    (es es' : slice T) (before after : list Z) (dropIndex : Z) :
  shift es after = Some es' →
  (Z.of_nat (len es') ≤ dropIndex)%Z →
  shift es (before ++ dropIndex :: after) = Some es'.
Proof.
  rewrite /shift !reverse_in_place_spec. intros Hafter Hge.
  rewrite reverse_app reverse_cons -app_assoc /=.
  by apply shift_loop_stop.
Qed.
End ShiftClaims.

(** Two distinct indexes within bounds: the cells at 1 and 3 go, the others
    keep their order. *)
Lemma shift_two_indexes :
  elems <$> shift (of_list ["E0"; "E1"; "E2"; "E3"]) [1; 3]%Z
  = Some ["E0"; "E2"].
Proof. reflexivity. Qed.

(** Claim C5, witness: after index 2 is removed from a slice of three cells,
    index 5 is beyond the length, and index 0, listed before it, stays. *)
Lemma shift_stops_at_first_index_beyond_length_witness :
  shift (of_list [10; 20; 30]%Z) [2%Z] = Some (Slice [10; 20]%Z [30%Z])
  ∧ (Z.of_nat (len (Slice [10; 20]%Z [30%Z])) ≤ 5)%Z
  ∧ shift (of_list [10; 20; 30]%Z) ([0%Z] ++ 5%Z :: [2%Z])
    = Some (Slice [10; 20]%Z [30%Z]).
Proof.
  split; [reflexivity|]. split; [vm_compute; discriminate|].
  apply (shift_stops_at_first_index_beyond_length
           (of_list [10; 20; 30]%Z) (Slice [10; 20]%Z [30%Z]) [0%Z] [2%Z] 5%Z).
  - reflexivity.
  - vm_compute; discriminate.
Defined.

(** Claim C5, counterexample: index 5 is beyond the length of a slice of
    three cells, and index 0 is within bounds; were index 5 ignored, the
    cell at index 0 would be removed, as it is when 0 is the only index.
    The pass stops at 5 and removes nothing. *)
Lemma shift_index_beyond_length_blocks_removal :
  elems <$> shift (of_list [10; 20; 30]%Z) [0; 5]%Z = Some [10; 20; 30]%Z
  ∧ elems <$> shift (of_list [10; 20; 30]%Z) [0]%Z = Some [20; 30]%Z
  ∧ shift (of_list [10; 20; 30]%Z) [0; 5]%Z
    ≠ shift (of_list [10; 20; 30]%Z) [0]%Z.
Proof. split_and!; [reflexivity|reflexivity|discriminate]. Qed.

Section ConditionClaims.
Context `{X : Externals}.
Implicit Types (d : Drop Regexp Code) (e : EventMsg).

(** Claim C2, as the code has it.  When the condition is set and its
    evaluation fails on an event, the loop goes on to the next element:
    the event is left unmarked, by the condition and by the regexes alike,
    which are not evaluated for it; the elements before and after it are
    scanned as usual, and [Apply] returns a batch. *)
Theorem condition_error_leaves_event_unmarked d e (err : error) :
  Condition d ≠ "" →
  CheckCondition (code d) e = Err err →
  (∀ (i : Z) (acc : list Z), scan_event d i (Some e) acc = acc)
  ∧ drops d e = false
  ∧ (∀ es1 es2,
       scan d 0 (es1 ++ Some e :: es2) []
       = scan d (Z.of_nat (length es1) + 1) es2 (scan d 0 es1 []))
  ∧ (∀ es, is_Some (Apply d es)).
Proof.
  intros Hcond Herr.
  assert (Hev : ∀ (i : Z) (acc : list Z), scan_event d i (Some e) acc = acc).
  { intros i acc. rewrite /scan_event bool_decide_true; [done|].
    by rewrite Herr. }
  split_and!; [done| | |apply Apply_total].
  - rewrite /drops bool_decide_true; [done|]. by rewrite Herr.
  - intros es1 es2. rewrite scan_app Z.add_0_l. cbn [scan]. by rewrite Hev.
Qed.
End ConditionClaims.

(** Claim C2, witness: the condition [error] raises on every event. *)
Lemma condition_error_leaves_event_unmarked_witness :
  Condition Examples.failing_condition ≠ ""
  ∧ @CheckCondition (Literal.engine true)
      (code Examples.failing_condition) Examples.debug_level_on
    = Err "unexpected condition return type"
  ∧ (∀ (i : Z) (acc : list Z),
       @scan_event (Literal.engine true) Examples.failing_condition i
         (Some Examples.debug_level_on) acc = acc).
Proof.
  split; [vm_compute; discriminate|]. split; [reflexivity|].
  apply (@condition_error_leaves_event_unmarked (Literal.engine true)
           Examples.failing_condition Examples.debug_level_on
           "unexpected condition return type").
  - vm_compute; discriminate.
  - reflexivity.
Defined.

(** Claim C2, counterexample: the condition fails on an event whose tag
    name matches a pattern.  Had the regexes been evaluated, index 0 would
    be marked and the event dropped, as it is without the condition; it is
    neither. *)
Lemma condition_error_skips_regexes :
  let E := Literal.engine true in
  let d := Examples.failing_condition in
  let e := Examples.debug_level_on in
  Condition d ≠ ""
  ∧ @CheckCondition E (code d) e = Err "unexpected condition return type"
  ∧ @scan_regexes E d 0 e [] = [0%Z]
  ∧ @scan_event E d 0 (Some e) [] = []
  ∧ @scan_event E d 0 (Some e) [] ≠ @scan_regexes E d 0 e []
  ∧ elems <$> @Apply E d (of_list [Some e]) = Some [Some e]
  ∧ elems <$> @Apply E Examples.debug_only (of_list [Some e]) = Some [].
Proof.
  split_and!; try reflexivity; vm_compute; discriminate.
Qed.

Section InitClaims.
Context `{X : Externals}.
Implicit Types (d : Drop Regexp Code) (cfg : RawConfig)
  (opts : list (Drop Regexp Code → Drop Regexp Code)).

(** Claim C7.  Once the configuration is decoded and the options applied,
    [Init] returns an error if the condition fails to parse or to compile,
    or if one pattern of one of the four lists fails to compile; and when
    [Init] returns [nil] the receiver is compiled in full: each compiled
    list holds the compiled form of every source of its list, in order,
    and the condition is compiled. *)
Theorem Init_fails_fast d cfg opts d1 :
  DecodeConfig cfg d = (d1, None) →
  (condition_compiles (apply_options d1 opts) = false
   ∨ Exists (λ s, compiles s = false)
       (pattern_sources (apply_options d1 opts)) →
   is_Some (Init d cfg opts).2)
  ∧ ((Init d cfg opts).2 = None → fully_compiled (Init d cfg opts).1).
Proof.
  intros Hdec. rewrite /Init Hdec. split.
  - apply Init_compile_fails.
  - intros Hnil. pose proof (Init_compile_cases (apply_options d1 opts)) as H.
    rewrite Hnil in H. tauto.
Qed.

(** Claim C4, as the code has it.  [Init] trims, parses and compiles the
    condition whatever it is.  With a condition that is empty once trimmed,
    [Init] succeeds whenever the parser and the compiler of queries accept
    the empty string and every pattern of the four lists compiles; the
    compiled program is kept, and [Apply] does not use it: the regexes
    alone decide. *)
Theorem Init_with_empty_condition d cfg opts d1 (q : Query) (c : Code) :
  DecodeConfig cfg d = (d1, None) →
  TrimSpace (Condition (apply_options d1 opts)) = "" →
  gojq_Parse "" = Ok q →
  gojq_Compile q = Ok c →
  Forall (λ s, compiles s = true) (pattern_sources (apply_options d1 opts)) →
  (Init d cfg opts).2 = None
  ∧ Condition (Init d cfg opts).1 = ""
  ∧ code (Init d cfg opts).1 = Some c
  ∧ fully_compiled (Init d cfg opts).1
  ∧ (∀ e, drops (Init d cfg opts).1 e = regex_hit (Init d cfg opts).1 e)
  ∧ (∀ (i : Z) e (acc : list Z),
       scan_event (Init d cfg opts).1 i (Some e) acc
       = scan_regexes (Init d cfg opts).1 i e acc).
Proof.
  intros Hdec Hempty Hq Hc Hall. rewrite /Init Hdec.
  set (d2 := apply_options d1 opts) in *.
  assert (Hcc : condition_compiles d2 = true).
  { by rewrite /condition_compiles Hempty Hq Hc. }
  pose proof (Init_compile_succeeds d2 Hcc Hall) as Hnil.
  pose proof (Init_compile_cases d2) as H. rewrite Hnil in H.
  destruct H as (_ & _ & Hfull & Hcond). rewrite Hempty in Hcond.
  assert (Hcode : code (Init_compile d2).1 = Some c).
  { destruct Hfull as (_ & _ & _ & _ & q' & c' & Hq' & Hc' & ->).
    rewrite Hcond in Hq'. congruence. }
  split_and!; try done.
  - intros e. rewrite /drops Hcond. by rewrite bool_decide_false; [intros ?|].
  - intros i e acc. rewrite /scan_event Hcond.
    by rewrite bool_decide_false; [intros ?|].
Qed.
End InitClaims.

(** Claim C7, witness: ["("] is no regular expression. *)
Lemma Init_fails_fast_witness :
  let E := Literal.engine true in
  let cfg := Literal.config "" [] [] ["debug"; "("] [] in
  @DecodeConfig E cfg Literal.zero = (cfg, None)
  ∧ (@Init E Literal.zero cfg []).2 = Some "error parsing regexp"
  ∧ is_Some (@Init E Literal.zero cfg []).2.
Proof.
  split; [reflexivity|]. split; [reflexivity|].
  apply (@Init_fails_fast (Literal.engine true) Literal.zero
           (Literal.config "" [] [] ["debug"; "("] []) []
           (Literal.config "" [] [] ["debug"; "("] []) eq_refl).
  right. vm_compute. right. by left.
Defined.

(** Claim C4, witness: a blank condition and two patterns. *)
Lemma Init_with_empty_condition_witness :
  let E := Literal.engine true in
  let cfg := Literal.config "  " ["debug"] [] ["on"] [] in
  @DecodeConfig E cfg Literal.zero = (cfg, None)
  ∧ @TrimSpace E (Condition (@apply_options E cfg [])) = ""
  ∧ @gojq_Parse E "" = Ok ""
  ∧ @gojq_Compile E "" = Ok ""
  ∧ Forall (λ s, @compiles E s = true)
      (pattern_sources (@apply_options E cfg []))
  ∧ (@Init E Literal.zero cfg []).2 = None.
Proof.
  do 4 (split; [reflexivity|]). split; [vm_compute; repeat constructor|].
  apply (@Init_with_empty_condition (Literal.engine true) Literal.zero
           (Literal.config "  " ["debug"] [] ["on"] []) []
           (Literal.config "  " ["debug"] [] ["on"] []) "" "").
  - reflexivity.
  - reflexivity.
  - reflexivity.
  - reflexivity.
  - vm_compute. repeat constructor.
Defined.

(** Claim C4, counterexample: the condition is empty and the one pattern
    compiles.  [Init] hands the empty string to the parser and to the
    compiler of queries all the same: where they accept it, the receiver
    holds a compiled program afterwards, which it did not before; where the
    parser rejects it, [Init] fails on account of the condition. *)
Lemma Init_parses_the_empty_condition :
  let cfg := Literal.config "" ["debug"] [] [] [] in
  Condition cfg = ""
  ∧ Forall (λ s, @compiles (Literal.engine true) s = true)
      (@pattern_sources (Literal.engine true) cfg)
  ∧ code Literal.zero = None
  ∧ (@Init (Literal.engine true) Literal.zero cfg []).2 = None
  ∧ code (@Init (Literal.engine true) Literal.zero cfg []).1 = Some ""
  ∧ @gojq_Parse (Literal.engine false) "" = Err "unexpected token"
  ∧ (@Init (Literal.engine false) Literal.zero cfg []).2
    = Some "unexpected token"
  ∧ (@Init (Literal.engine false) Literal.zero cfg []).2 ≠ None.
Proof.
  split_and!; try reflexivity; [|discriminate].
  vm_compute. repeat constructor.
Qed.

Section ValueClaims.
Context `{X : Externals}.
Implicit Types (d : Drop Regexp Code) (v : value).

Lemma any_match_value_nonstring res v :
  is_string v = false → any_match_value res v = false.
Proof. by destruct v. Qed.

(** Claim C8.  A value that is not a string is matched by no value
    pattern, whatever its rendering as text: the loop over the value
    patterns appends nothing for it, so in any event its entry counts only
    through its key; and an event none of whose values is a string is
    scanned as by the processor without value patterns. *)
Theorem nonstring_value_is_never_matched d v :
  is_string v = false →
  any_match_value (values d) v = false
  ∧ (∀ (i : Z) (acc : list Z), match_any_value (values d) v i acc = acc)
  ∧ (∀ (i : Z) (k : string) kvs1 kvs2 (acc : list Z),
       scan_values d i (kvs1 ++ (k, v) :: kvs2) acc
       = scan_values d i kvs2
           (match_any (valueNames d) k i (scan_values d i kvs1 acc)))
  ∧ (∀ (i : Z) e (acc : list Z),
       Forall (λ kv, is_string kv.2 = false) (formatters.Values e) →
       scan_event d i (Some e) acc
       = scan_event (set_values [] d) i (Some e) acc).
Proof.
  intros Hv.
  assert (Hloop : ∀ (i : Z) (acc : list Z),
             match_any_value (values d) v i acc = acc).
  { intros i acc. rewrite match_any_value_spec any_match_value_nonstring //.
    by rewrite /= app_nil_r. }
  split_and!; [by apply any_match_value_nonstring|done| |].
  - intros i k kvs1 kvs2 acc.
    by rewrite /scan_values foldl_app /= Hloop.
  - intros i e acc Hall. rewrite !scan_event_spec. do 2 f_equal.
    rewrite /marks /=.
    assert (Hr : regex_marks d e = regex_marks (set_values [] d) e).
    { rewrite /regex_marks /=. do 2 f_equal. apply Forall_fmap_ext.
      eapply Forall_impl; [exact Hall|]. intros kv Hkv. simpl.
      by rewrite !any_match_value_nonstring. }
    by rewrite Hr.
Qed.
End ValueClaims.

(** Claim C8, witness: the number 42 and the pattern ["42"]. *)
Lemma nonstring_value_is_never_matched_witness :
  let E := Literal.engine true in
  is_string (VNumber 42) = false
  ∧ @MatchString E "42" "42" = true
  ∧ @any_match_value E (values Examples.value_42) (VNumber 42) = false.
Proof.
  split; [reflexivity|]. split; [reflexivity|].
  apply (@nonstring_value_is_never_matched (Literal.engine true)
           Examples.value_42 (VNumber 42)).
  reflexivity.
Defined.

(** The event with the number 42 stays, the one with the string ["42"]
    goes. *)
Lemma number_42_is_kept :
  let E := Literal.engine true in
  elems <$> @Apply E Examples.value_42
              (of_list [Some Examples.number_42; Some Examples.string_42])
  = Some [Some Examples.number_42].
Proof. reflexivity. Qed.

(** Claim C6, witness: no tag of the batch holds ["debug"] or ["on"]. *)
Lemma Apply_identity_when_nothing_matches_witness :
  let E := Literal.engine true in
  let es := Slice [Some Examples.site_a; None; Some Examples.site_b] [None] in
  Forall (λ oe, @unmarked E Examples.debug_on oe = true) (elems es)
  ∧ @Apply E Examples.debug_on es = Some es.
Proof.
  split; [repeat constructor|].
  apply (@Apply_identity_when_nothing_matches (Literal.engine true)
           Examples.debug_on
           (Slice [Some Examples.site_a; None; Some Examples.site_b] [None])).
  repeat constructor.
Defined.

(** Claim C1, on the batch of the claim.  The second and the fourth event
    match; the fourth matches by its tag name and by its tag value, so that
    its index is marked twice.  The removal pass takes the fourth event
    away, finds index 3 again, now beyond the length, and stops: the second
    event stays.  The claim has the result [[E0; E2]]. *)
Theorem Apply_keeps_a_matching_event :
  let E := Literal.engine true in
  let d := Examples.debug_on in
  let E0 := Examples.site_a in
  let E1 := Examples.debug_off in
  let E2 := Examples.site_b in
  let E3 := Examples.debug_level_on in
  @drops E d E0 = false ∧ @drops E d E1 = true
  ∧ @drops E d E2 = false ∧ @drops E d E3 = true
  ∧ @scan E d 0 [Some E0; Some E1; Some E2; Some E3] [] = [1; 3; 3]%Z
  ∧ elems <$> @Apply E d (of_list [Some E0; Some E1; Some E2; Some E3])
    = Some [Some E0; Some E1; Some E2].
Proof. by split_and!. Qed.

(** Claim C3, on two batches.  An event that matches by its tag name and
    by its tag value has its index in the to-drop list twice, and the
    removal pass then takes away the event after it, which matches
    nothing.  With an event that matches once, the list holds the index once
    and the event after it stays. *)
Theorem double_match_marks_index_twice :
  let E := Literal.engine true in
  let d := Examples.debug_on in
  let twice := Examples.debug_level_on in
  let once := Examples.debug_off in
  let other := Examples.site_a in
  @drops E d other = false
  ∧ @marks E d (Some twice) = 2%nat
  ∧ @scan E d 0 [Some twice; Some other] [] = [0; 0]%Z
  ∧ elems <$> @Apply E d (of_list [Some twice; Some other]) = Some []
  ∧ @marks E d (Some once) = 1%nat
  ∧ @scan E d 0 [Some once; Some other] [] = [0]%Z
  ∧ elems <$> @Apply E d (of_list [Some once; Some other])
    = Some [Some other].
Proof. by split_and!. Qed.

(** * Further properties of the processor *)

Section ScanOrder.
Context `{X : Externals}.
Implicit Types (d : Drop Regexp Code) (es : list (option EventMsg)).

(** Property X1.  The to-drop list of [Apply] is in ascending order, which is
    what lets [shift] reverse it instead of sorting it; its entries are
    positions of the batch; and a position is in it exactly when it holds an
    event that the criteria decide to drop. *)
Theorem scan_ascending_and_exact d es :
  StronglySorted Z.le (scan d 0 es [])
  ∧ Forall (λ i, 0 ≤ i < Z.of_nat (length es))%Z (scan d 0 es [])
  ∧ (∀ k : nat, Z.of_nat k ∈ scan d 0 es []
                ↔ ∃ e, es !! k = Some (Some e) ∧ drops d e = true).
Proof.
  split_and!.
  - induction es as [|oe es IH] using rev_ind; [constructor|].
    rewrite scan_snoc. apply StronglySorted_app_2; [|done|].
    + intros x1 x2 Hx1 Hx2%elem_of_replicate_inv. subst x2.
      pose proof (scan_bounds d es) as Hb.
      rewrite Forall_forall in Hb. specialize (Hb x1 Hx1). lia.
    + induction (marks d oe) as [|m IHm]; simpl; constructor; [done|].
      apply Forall_forall. intros x Hx%elem_of_replicate_inv. lia.
  - apply scan_bounds.
  - intros k. rewrite elem_of_scan. split.
    + intros [Hin|(k' & oe & Hk & Heq & Hu)]; [by apply elem_of_nil in Hin|].
      assert (k' = k) as -> by lia. destruct oe as [e|]; [|done].
      exists e. split; [done|]. simpl in Hu. by apply negb_false_iff.
    + intros (e & Hk & Hd). right. exists k, (Some e).
      split_and!; [done|lia|]. by rewrite /= Hd.
Qed.

(** No position is marked twice exactly when no element is. *)
Lemma NoDup_scan d es :
  NoDup (scan d 0 es []) ↔ Forall (λ oe, (marks d oe ≤ 1)%nat) es.
Proof.
  induction es as [|oe es IH] using rev_ind.
  { split; [constructor|intros _; apply NoDup_nil_2]. }
  rewrite scan_snoc NoDup_app Forall_app Forall_singleton IH. split.
  - intros (H1 & _ & H3). split; [done|].
    destruct (marks d oe) as [|[|m]]; [lia|lia|].
    simpl in H3. apply NoDup_cons in H3 as [Hnotin _].
    exfalso. apply Hnotin. by left.
  - intros [H1 H2]. split_and!; [done| |].
    + intros x Hx Hx'%elem_of_replicate_inv. subst x.
      pose proof (scan_bounds d es) as Hb.
      rewrite Forall_forall in Hb. specialize (Hb _ Hx). lia.
    + destruct (marks d oe) as [|[|m]]; [apply NoDup_nil_2| |lia].
      apply NoDup_singleton.
Qed.
End ScanOrder.

Section ShiftCorrect.
Context {T : Type}.
Implicit Types (l : list T) (idxs : list Z) (es : slice T).

Lemma remaining_snoc l (x : T) idxs :
  remaining (l ++ [x]) idxs
  = remaining l idxs
    ++ (if bool_decide (Z.of_nat (length l) ∈ idxs) then [] else [x]).
Proof.
  rewrite /remaining imap_app filter_app fmap_app /= Nat.add_0_r.
  f_equal. rewrite filter_cons /=. by case_decide; case_bool_decide.
Qed.

Lemma remaining_ext l idxs idxs' :
  (∀ k : nat, (k < length l)%nat →
              Z.of_nat k ∈ idxs ↔ Z.of_nat k ∈ idxs') →
  remaining l idxs = remaining l idxs'.
Proof.
  induction l as [|x l IH] using rev_ind; intros Hext; [done|].
  rewrite !remaining_snoc IH.
  { intros k Hk. apply Hext. rewrite length_app /=. lia. }
  f_equal. specialize (Hext (length l)). rewrite length_app /= in Hext.
  assert (Hl : (length l < length l + 1)%nat) by lia.
  destruct (Hext Hl) as [H1 H2].
  case_bool_decide; case_bool_decide; try done; exfalso; auto.
Qed.

Lemma remaining_nil l : remaining l [] = l.
Proof.
  induction l as [|x l IH] using rev_ind; [done|].
  rewrite remaining_snoc IH. case_bool_decide as H; [|done].
  by apply elem_of_nil in H.
Qed.

(** Strictly ascending indexes within bounds: the pass, which takes them
    from the highest down, removes every one of them. *)
Lemma remove_run_remaining l : ∀ idxs,
  StronglySorted Z.lt idxs →
  Forall (λ i, 0 ≤ i < Z.of_nat (length l))%Z idxs →
  remove_run l (reverse idxs) = Some (remaining l idxs)
  ∧ (length (remaining l idxs) + length idxs = length l)%nat.
Proof.
  induction l as [|x l IH] using rev_ind; intros idxs Hsort Hrange.
  { destruct idxs as [|i idxs]; [done|].
    apply Forall_cons in Hrange as [Hi _]. simpl in Hi. lia. }
  destruct idxs as [|j idxs0 _] using rev_ind.
  { by rewrite /= remaining_nil /= Nat.add_0_r. }
  apply StronglySorted_app in Hsort as (Hlt & Hsort0 & _).
  apply Forall_app in Hrange as [Hrange0 Hj].
  rewrite Forall_singleton length_app Nat2Z.inj_add /= in Hj.
  assert (Hlow : Forall (λ i, 0 ≤ i < j)%Z idxs0).
  { apply Forall_forall. intros i Hi. rewrite Forall_forall in Hrange0.
    specialize (Hrange0 i Hi).
    assert (Hjj : j ∈ [j]) by by apply list_elem_of_singleton.
    specialize (Hlt i j Hi Hjj). lia. }
  rewrite remaining_snoc.
  destruct (decide (j = Z.of_nat (length l))) as [->|Hne].
  - destruct (IH idxs0 Hsort0) as [Hrun Hlen]; [done|].
    rewrite bool_decide_true.
    { apply elem_of_app. right. by apply list_elem_of_singleton. }
    rewrite app_nil_r.
    assert (Hrem : remaining l (idxs0 ++ [Z.of_nat (length l)])
                   = remaining l idxs0).
    { apply remaining_ext. intros k Hk. rewrite elem_of_app.
      split; [|by left]. intros [?|Hin]; [done|].
      apply list_elem_of_singleton in Hin. lia. }
    rewrite Hrem reverse_snoc /=.
    destruct (Z.ltb_spec (Z.of_nat (length l))
                (Z.of_nat (length (l ++ [x])))) as [_|Hge].
    2:{ rewrite length_app /= in Hge. lia. }
    destruct (Z.ltb_spec (Z.of_nat (length l)) 0) as [?|_]; [lia|].
    rewrite Nat2Z.id delete_take_drop take_app_length.
    rewrite drop_ge; [rewrite length_app /=; lia|]. rewrite app_nil_r.
    split; [done|]. rewrite !length_app /=. lia.
  - assert (Hall : Forall (λ i, 0 ≤ i < Z.of_nat (length l))%Z
                     (idxs0 ++ [j])).
    { apply Forall_app. split; [|apply Forall_singleton; simpl; lia].
      eapply Forall_impl; [exact Hlow|]. simpl. lia. }
    destruct (IH (idxs0 ++ [j])) as [Hrun Hlen]; [|done|].
    { apply StronglySorted_app_2; [done|done|repeat constructor]. }
    rewrite bool_decide_false.
    { intros Hin. rewrite Forall_forall in Hall.
      specialize (Hall _ Hin). lia. }
    split; [|rewrite !length_app /= in Hlen |- *; lia].
    apply remove_run_app; [done|]. rewrite length_reverse. lia.
Qed.

(** Property X2.  [shift], given strictly ascending indexes within bounds,
    returns the cells at the other positions, in their order, and as many
    fewer cells as there are indexes. *)
Theorem shift_removes_ascending_indexes es idxs :
  StronglySorted Z.lt idxs →
  Forall (λ i, 0 ≤ i < Z.of_nat (len es))%Z idxs →
  ∃ out, shift es idxs = Some out
         ∧ elems out = remaining (elems es) idxs
         ∧ (len out + length idxs = len es)%nat.
Proof.
  intros Hsort Hrange.
  destruct (remove_run_remaining (elems es) idxs Hsort Hrange) as [Hrun Hlen].
  pose proof (shift_elems es idxs) as He. rewrite Hrun in He.
  destruct (shift es idxs) as [out|]; [|done].
  exists out. injection He as He. by rewrite /len He.
Qed.
End ShiftCorrect.

(** Property X2, witness: the second and the fourth of four cells. *)
Lemma shift_removes_ascending_indexes_witness :
  StronglySorted Z.lt [1; 3]%Z
  ∧ Forall (λ i, 0 ≤ i < Z.of_nat (len (of_list ["a"; "b"; "c"; "d"])))%Z
      [1; 3]%Z
  ∧ remaining ["a"; "b"; "c"; "d"] [1; 3]%Z = ["a"; "c"]
  ∧ ∃ out, shift (of_list ["a"; "b"; "c"; "d"]) [1; 3]%Z = Some out
           ∧ elems out = remaining ["a"; "b"; "c"; "d"] [1; 3]%Z
           ∧ (len out + 2 = 4)%nat.
Proof.
  assert (Hs : StronglySorted Z.lt [1; 3]%Z).
  { repeat constructor; lia. }
  assert (Hr : Forall (λ i, 0 ≤ i < Z.of_nat
                         (len (of_list ["a"; "b"; "c"; "d"])))%Z [1; 3]%Z).
  { repeat constructor; simpl; lia. }
  split; [exact Hs|]. split; [exact Hr|]. split; [reflexivity|].
  exact (shift_removes_ascending_indexes
           (of_list ["a"; "b"; "c"; "d"]) [1; 3]%Z Hs Hr).
Defined.

Section ShiftInPlace.
Context {T : Type}.
Implicit Types (l : list T) (idxs : list Z) (es : slice T).

Lemma shift_loop_spare es out idxs :
  shift_loop es idxs = Some out →
  ∃ stale, spare out = stale ++ spare es
           ∧ (len out + length stale = len es)%nat
           ∧ Forall (λ x, x ∈ elems es) stale.
Proof.
  revert es. induction idxs as [|d idxs IH]; intros es; simpl.
  { intros [= ->]. exists []. split_and!; [done|simpl; lia|constructor]. }
  destruct (Z.ltb_spec d (Z.of_nat (len es))) as [Hlt|Hge].
  2:{ intros [= ->]. exists []. split_and!; [done|simpl; lia|constructor]. }
  destruct (Z.ltb_spec d 0) as [Hneg|Hpos].
  { by rewrite remove_at_negative. }
  rewrite remove_at_spec; [lia|]. intros Hrun.
  destruct (IH _ Hrun) as (stale & Hsp & Hlen & Hin). simpl in *.
  assert (Hd : (Z.to_nat d < length (elems es))%nat) by (rewrite /len in Hlt; lia).
  exists (stale ++ drop (len es - 1) (elems es)).
  split_and!.
  - by rewrite Hsp app_assoc.
  - move: Hlen. rewrite /len /= length_app length_drop length_delete.
    { by apply lookup_lt_is_Some. }
    lia.
  - apply Forall_app. split.
    + eapply Forall_impl; [exact Hin|]. intros x Hx. simpl in Hx |- *.
      eapply list_elem_of_delete_inv. exact Hx.
    + apply Forall_forall. intros x Hx.
      eapply elem_of_sublist; [exact Hx|apply sublist_drop].
Qed.

(** Property X3.  [shift] works in place. The backing array keeps its size,
    the cells behind the window it was given are left as they were, and the
    cells that leave the window are not cleared: each still holds an element
    of the input. *)
Theorem shift_is_in_place es out idxs :
  shift es idxs = Some out →
  length (backing out) = length (backing es)
  ∧ ∃ stale, spare out = stale ++ spare es
             ∧ (len out + length stale = len es)%nat
             ∧ Forall (λ x, x ∈ elems es) stale.
Proof.
  intros H. split; [by eapply shift_loop_backing|].
  by eapply shift_loop_spare.
Qed.

Lemma remove_run_length l l' idxs :
  remove_run l idxs = Some l' →
  (length l ≤ length l' + length idxs)%nat.
Proof.
  revert l. induction idxs as [|d idxs IH]; intros l; simpl.
  { intros [= ->]. lia. }
  destruct (Z.ltb_spec d (Z.of_nat (length l))) as [Hlt|Hge].
  2:{ intros [= ->]. lia. }
  destruct (Z.ltb_spec d 0) as [Hneg|Hpos]; [done|].
  intros H%IH. rewrite length_delete in H.
  { apply lookup_lt_is_Some. lia. }
  lia.
Qed.

Lemma remove_run_first l l' (d : Z) idxs :
  (0 ≤ d < Z.of_nat (length l))%Z →
  remove_run l (d :: idxs) = Some l' → (length l' < length l)%nat.
Proof.
  intros [Hd0 Hdn]. simpl.
  destruct (Z.ltb_spec d (Z.of_nat (length l))) as [_|?]; [|lia].
  destruct (Z.ltb_spec d 0) as [?|_]; [lia|].
  intros H%remove_run_sublist%sublist_length.
  rewrite length_delete in H; [apply lookup_lt_is_Some; lia|]. lia.
Qed.
End ShiftInPlace.

(** Property X3, witness: one removal from a slice of three cells with one
    spare cell. *)
Lemma shift_is_in_place_witness :
  shift (Slice ["a"; "b"; "c"] ["z"]) [0%Z] = Some (Slice ["b"; "c"] ["c"; "z"])
  ∧ length (backing (Slice ["b"; "c"] ["c"; "z"]))
    = length (backing (Slice ["a"; "b"; "c"] ["z"])).
Proof.
  split; [reflexivity|].
  apply (shift_is_in_place (Slice ["a"; "b"; "c"] ["z"])
           (Slice ["b"; "c"] ["c"; "z"]) [0%Z]).
  reflexivity.
Defined.

(** Property X4.  The first loop of [shift] reverses the list of indexes,
    whatever its length: it keeps the entries, and applied twice gives the
    list back. *)
Theorem reverse_in_place_reverses (l : list Z) :
  reverse_in_place l = reverse l
  ∧ reverse_in_place l ≡ₚ l
  ∧ reverse_in_place (reverse_in_place l) = l.
Proof.
  rewrite !reverse_in_place_spec. split_and!; [done| |].
  - apply reverse_Permutation.
  - apply reverse_involutive.
Qed.

Section ApplyBounds.
Context `{X : Externals}.
Implicit Types (d : Drop Regexp Code) (es : slice (option EventMsg)).

(** Property X8.  [Apply] removes at most one element for each index it has
    marked, and at least one element as soon as it has marked any. *)
Theorem Apply_removal_bounds d es :
  ∃ out, Apply d es = Some out
         ∧ (len es ≤ len out + length (scan d 0 (elems es) []))%nat
         ∧ (scan d 0 (elems es) [] ≠ [] → (len out < len es)%nat).
Proof.
  destruct (Apply_total d es) as [out Hout]. exists out.
  pose proof (Apply_elems d es) as He. rewrite Hout /= in He.
  symmetry in He. split_and!; [done| |].
  - apply remove_run_length in He. by rewrite length_reverse in He.
  - intros Hne. pose proof (scan_bounds d (elems es)) as Hb.
    destruct (scan d 0 (elems es) []) as [|i idxs _] using rev_ind; [done|].
    rewrite reverse_snoc in He. apply Forall_app in Hb as [_ Hi].
    rewrite Forall_singleton in Hi. by eapply remove_run_first.
Qed.
End ApplyBounds.

Section ApplyCorrect.
Context `{X : Externals}.
Implicit Types (d : Drop Regexp Code) (es : slice (option EventMsg))
  (e : EventMsg).

(** Property X5.  When no element of the batch is marked more than once (no
    event has two keys or values that match, or a key and a value), [Apply]
    returns the elements that no criterion drops, in their order, the [nil]
    elements among them. *)
Theorem Apply_drops_exactly_the_marked d es :
  Forall (λ oe, (marks d oe ≤ 1)%nat) (elems es) →
  ∃ out, Apply d es = Some out
         ∧ elems out = filter (λ oe, unmarked d oe = true) (elems es).
Proof.
  intros Hall%NoDup_scan. destruct (Apply_total d es) as [out Hout].
  exists out. split; [done|]. apply Apply_filter in Hall.
  rewrite Hout /= in Hall. by injection Hall.
Qed.

(** Property X6.  Under the same condition a second [Apply] changes nothing:
    it returns the slice that the first returned. *)
Theorem Apply_twice d es out :
  Forall (λ oe, (marks d oe ≤ 1)%nat) (elems es) →
  Apply d es = Some out →
  Apply d out = Some out.
Proof.
  intros Hall%NoDup_scan%(Apply_filter d es) Hout.
  rewrite Hout /= in Hall. injection Hall as Hel.
  assert (Hnil : scan d 0 (elems out) [] = []).
  { apply scan_nil_iff. rewrite Hel. apply Forall_forall.
    by intros oe [Hu _]%list_elem_of_filter. }
  by rewrite /Apply Hnil.
Qed.

Lemma regex_marks_no_patterns d e :
  tagNames d = [] → tags d = [] → valueNames d = [] → values d = [] →
  regex_marks d e = 0%nat.
Proof.
  intros H1 H2 H3 H4. apply regex_marks_zero.
  rewrite /regex_hit H1 H2 H3 H4. apply orb_false_iff. split.
  - induction (formatters.Values e) as [|[k v] kvs IH]; [done|].
    simpl. by destruct v.
  - by induction (formatters.Tags e) as [|[k v] kvs IH].
Qed.

(** Property X7.  A processor with a condition and no pattern drops the events
    on which the condition evaluates to true, and only them: an event on which
    the evaluation fails stays, and so does every [nil] element. *)
Theorem Apply_with_condition_only d es :
  tagNames d = [] → tags d = [] → valueNames d = [] → values d = [] →
  (∀ e, drops d e = condition_holds d e)
  ∧ ∃ out, Apply d es = Some out
           ∧ elems out
             = filter (λ oe, condition_holds d <$> oe ≠ Some true) (elems es).
Proof.
  intros H1 H2 H3 H4.
  assert (Hz : ∀ e, regex_marks d e = 0%nat).
  { intros e. by apply regex_marks_no_patterns. }
  assert (Hd : ∀ e, drops d e = condition_holds d e).
  { intros e. rewrite /drops /condition_holds.
    assert (Hh : regex_hit d e = false) by by apply regex_marks_zero.
    rewrite Hh. case_bool_decide; simpl; [|done].
    by destruct (CheckCondition (code d) e) as [[|]|]. }
  split; [done|].
  assert (Hm : Forall (λ oe, (marks d oe ≤ 1)%nat) (elems es)).
  { apply Forall_forall. intros [e|] _; simpl; [|lia].
    rewrite Hz. case_bool_decide; [|lia].
    destruct (CheckCondition (code d) e) as [[|]|]; lia. }
  apply NoDup_scan in Hm. destruct (Apply_total d es) as [out Hout].
  exists out. split; [done|]. apply Apply_filter in Hm.
  rewrite Hout /= in Hm. injection Hm as ->.
  apply list_filter_iff. intros [e|]; simpl.
  - rewrite Hd. by destruct (condition_holds d e).
  - done.
Qed.
End ApplyCorrect.

Section MapOrder.
Context `{X : Externals}.
Implicit Types (d : Drop Regexp Code) (e : EventMsg).

(** Property X9.  Go iterates a map in an order of its choosing. The regex
    loops append the same indexes whatever the order in which they meet the
    entries of the tags and of the values. *)
Theorem scan_regexes_any_map_order d e e' (i : Z) (acc : list Z) :
  formatters.Tags e ≡ₚ formatters.Tags e' →
  formatters.Values e ≡ₚ formatters.Values e' →
  scan_regexes d i e acc = scan_regexes d i e' acc
  ∧ regex_hit d e = regex_hit d e'.
Proof.
  intros Ht Hv.
  assert (Hm : regex_marks d e = regex_marks d e').
  { rewrite /regex_marks. by rewrite Ht Hv. }
  split; [by rewrite !scan_regexes_spec Hm|].
  pose proof (regex_marks_zero d e) as H1.
  pose proof (regex_marks_zero d e') as H2. rewrite Hm in H1.
  destruct (regex_hit d e), (regex_hit d e'); try done.
  - destruct H2 as [_ H2]. specialize (H2 eq_refl).
    destruct H1 as [H1 _]. by specialize (H1 H2).
  - destruct H1 as [_ H1]. specialize (H1 eq_refl).
    destruct H2 as [H2 _]. by specialize (H2 H1).
Qed.
End MapOrder.

Section InitMore.
Context `{X : Externals}.
Implicit Types (d : Drop Regexp Code) (srcs : list string)
  (acc res : list Regexp).

Lemma first_error_app srcs1 srcs2 :
  first_error (srcs1 ++ srcs2)
  = match first_error srcs1 with
    | Some e => Some e
    | None => first_error srcs2
    end.
Proof.
  induction srcs1 as [|src srcs1 IH]; simpl; [done|].
  by destruct (regexp_Compile src).
Qed.

Lemma compile_into_error set srcs acc d :
  (compile_into set srcs acc d).2 = first_error srcs.
Proof.
  revert acc. induction srcs as [|src srcs IH]; intros acc; simpl; [done|].
  by destruct (regexp_Compile src).
Qed.

Lemma compile_into_receiver set srcs acc d :
  ∃ res, (compile_into set srcs acc d).1 = set res d.
Proof.
  revert acc. induction srcs as [|src srcs IH]; intros acc; simpl.
  { by exists acc. }
  destruct (regexp_Compile src); [apply IH|by exists acc].
Qed.

Lemma compiled_from_unique srcs res res' :
  compiled_from srcs res → compiled_from srcs res' → res = res'.
Proof.
  intros H. revert res'.
  induction H as [|src re srcs res Hsrc _ IH]; intros res' H';
    inversion H' as [|?? ? res'' Hsrc' Hrest]; subst; [done|].
  f_equal; [congruence|by apply IH].
Qed.

(** The error that the compiling part of [Init] returns. *)
Lemma Init_compile_error d :
  (Init_compile d).2
  = match gojq_Parse (TrimSpace (Condition d)) with
    | Err e => Some e
    | Ok q =>
        match gojq_Compile q with
        | Err e => Some e
        | Ok _ => first_error (pattern_sources d)
        end
    end.
Proof.
  rewrite /Init_compile /pattern_sources /=.
  destruct (gojq_Parse (TrimSpace (Condition d))) as [q|e]; [|done].
  destruct (gojq_Compile q) as [c|e]; [|done].
  rewrite !first_error_app.
  do 4 (match goal with
        | |- context [compile_into ?set ?srcs ?acc ?d0] =>
            let He := fresh "He" in
            let res := fresh "res" in
            let Hres := fresh "Hres" in
            pose proof (compile_into_error set srcs acc d0) as He;
            destruct (compile_into_receiver set srcs acc d0) as [res Hres];
            destruct (compile_into set srcs acc d0) as [? [?|]];
            simpl in He, Hres; rewrite -He; [done|]; subst; simpl
        end).
  done.
Qed.

(** What a successful [Init] leaves in the receiver: the configuration with
    the condition trimmed, and the compiled form of each list and of the
    condition; nothing of what the compiled fields held before. *)
Lemma Init_compile_success_form d :
  (Init_compile d).2 = None →
  ∃ q c r1 r2 r3 r4,
    gojq_Parse (TrimSpace (Condition d)) = Ok q ∧ gojq_Compile q = Ok c
    ∧ compiled_from (TagNames d) r1 ∧ compiled_from (Tags d) r2
    ∧ compiled_from (ValueNames d) r3 ∧ compiled_from (Values d) r4
    ∧ (Init_compile d).1
      = {| Condition := TrimSpace (Condition d); TagNames := TagNames d;
           ValueNames := ValueNames d; Tags := Tags d; Values := Values d;
           Debug := Debug d; tagNames := r1; valueNames := r3; tags := r2;
           values := r4; code := Some c |}.
Proof.
  rewrite /Init_compile /=.
  destruct (gojq_Parse (TrimSpace (Condition d))) as [q|e] eqn:Eq; [|done].
  destruct (gojq_Compile q) as [c|e] eqn:Ec; [|done].
  do 4 (match goal with
        | |- context [compile_into ?set ?srcs ?acc ?d0] =>
            let r := fresh "r" in
            let H := fresh "Hr" in
            destruct (compile_into_cases set srcs acc d0)
              as [(r & H & ->)|(r & ? & ? & ->)]; [simpl|done]
        end).
  intros _. by exists q, c, r, r0, r1, r2.
Qed.

(** Failing or not, [Init] leaves the pattern lists and the debug flag of
    the configuration as they were. *)
Lemma Init_compile_keeps_config d :
  TagNames (Init_compile d).1 = TagNames d
  ∧ Tags (Init_compile d).1 = Tags d
  ∧ ValueNames (Init_compile d).1 = ValueNames d
  ∧ Values (Init_compile d).1 = Values d
  ∧ Debug (Init_compile d).1 = Debug d.
Proof.
  rewrite /Init_compile /=.
  destruct (gojq_Parse (TrimSpace (Condition d))) as [q|e]; [|done].
  destruct (gojq_Compile q) as [c|e]; [|done].
  do 4 (match goal with
        | |- context [compile_into ?set ?srcs ?acc ?d0] =>
            let res := fresh "res" in
            let Hres := fresh "Hres" in
            destruct (compile_into_receiver set srcs acc d0) as [res Hres];
            destruct (compile_into set srcs acc d0) as [? [?|]];
            simpl in Hres; subst; simpl; [done|]
        end).
  done.
Qed.

(** Property X10.  The error that [Init] returns is the first one met: that of
    the decoding, else that of the parser of the trimmed condition, else that
    of its compiler, else that of the first pattern that does not compile, the
    lists being taken in the order tag-names, tags, value-names, values. *)
Theorem Init_returns_the_first_error d (cfg : RawConfig)
    (opts : list (Drop Regexp Code → Drop Regexp Code)) :
  (Init d cfg opts).2
  = match DecodeConfig cfg d with
    | (_, Some e) => Some e
    | (d1, None) =>
        let d2 := apply_options d1 opts in
        match gojq_Parse (TrimSpace (Condition d2)) with
        | Err e => Some e
        | Ok q =>
            match gojq_Compile q with
            | Err e => Some e
            | Ok _ =>
                first_error
                  (TagNames d2 ++ Tags d2 ++ ValueNames d2 ++ Values d2)
            end
        end
    end.
Proof.
  rewrite /Init. destruct (DecodeConfig cfg d) as [d1 [e|]]; [done|].
  apply Init_compile_error.
Qed.

(** Property X11.  [Init] builds the compiled fields anew. Two receivers with
    the same configuration get the same error; when there is none they are
    left equal, whatever their compiled fields held before; and the pattern
    lists and the debug flag of the configuration are never changed. *)
Theorem Init_depends_on_the_configuration_only d d' :
  same_config d d' →
  (Init_compile d).2 = (Init_compile d').2
  ∧ ((Init_compile d).2 = None → (Init_compile d).1 = (Init_compile d').1)
  ∧ (TagNames (Init_compile d).1 = TagNames d
     ∧ Tags (Init_compile d).1 = Tags d
     ∧ ValueNames (Init_compile d).1 = ValueNames d
     ∧ Values (Init_compile d).1 = Values d
     ∧ Debug (Init_compile d).1 = Debug d).
Proof.
  intros (Hc & Htn & Hvn & Ht & Hv & Hdb).
  assert (Herr : (Init_compile d).2 = (Init_compile d').2).
  { by rewrite !Init_compile_error /pattern_sources Hc Htn Hvn Ht Hv. }
  split; [done|]. split.
  - intros Hnil.
    destruct (Init_compile_success_form d Hnil)
      as (q & c & r1 & r2 & r3 & r4 & Hq & Hcc & H1 & H2 & H3 & H4 & ->).
    rewrite Herr in Hnil.
    destruct (Init_compile_success_form d' Hnil)
      as (q' & c' & r1' & r2' & r3' & r4' & Hq' & Hcc' & H1' & H2' & H3'
          & H4' & ->).
    rewrite -Hc in Hq'. rewrite -Htn in H1'. rewrite -Ht in H2'.
    rewrite -Hvn in H3'. rewrite -Hv in H4'.
    assert (q' = q) as -> by congruence.
    assert (c' = c) as -> by congruence.
    rewrite (compiled_from_unique _ _ _ H1 H1').
    rewrite (compiled_from_unique _ _ _ H2 H2').
    rewrite (compiled_from_unique _ _ _ H3 H3').
    rewrite (compiled_from_unique _ _ _ H4 H4').
    by rewrite Hc Htn Hvn Ht Hv Hdb.
  - apply Init_compile_keeps_config.
Qed.
End InitMore.

(** * Properties of [printCapResponse] *)

Section PrintFacts.
Context `{E : cmd.Externals}.
Context (indent : string → string → string).
Context (prototext_Format : option cmd.CapabilityResponse → string).

Lemma prefix_append (p s : string) : String.prefix p (p +:+ s) = true.
Proof.
  induction p as [|c p IH]; simpl; [by destruct s|].
  by destruct (Ascii.ascii_dec c c).
Qed.

(** Property X13.  With several targets and without [no-prefix], every text
    printed for a response in the plain format, the closing line feed apart,
    starts with the address of its target between brackets. *)
Theorem printCapResponse_prefixes_every_line r (address : string) out :
  (1 < length (cmd.viper_GetStringSlice "address"))%nat →
  cmd.viper_GetBool "no-prefix" = false →
  cmd.viper_GetString "format" ≠ "textproto" →
  cmd.printCapResponse indent prototext_Format r address = Some out →
  Forall (λ line, line = cmd.nl
                  ∨ String.prefix ("[" +:+ address +:+ "] ") line = true) out.
Proof.
  intros Hn Hnp Hf. rewrite /cmd.printCapResponse /cmd.prefix_for Hnp.
  assert (Hlt : Nat.ltb 1 (length (cmd.viper_GetStringSlice "address")) = true)
    by by apply Nat.ltb_lt.
  rewrite Hlt. cbn [andb negb]. rewrite bool_decide_false; [done|].
  destruct r as [r|]; [|done].
  destruct (cmd.viper_GetBool "version"); intros [= <-].
  { apply Forall_singleton. right. apply prefix_append. }
  repeat first [apply Forall_cons_2 | apply Forall_app_2 | apply Forall_nil_2];
    first [ by left
          | right; apply prefix_append
          | apply Forall_fmap, Forall_forall; intros ? _; right;
            apply prefix_append ].
Qed.

(** Property X14.  With one target, or with [no-prefix], what is printed does
    not depend on the address. *)
Theorem printCapResponse_without_prefix r (address address' : string) :
  (length (cmd.viper_GetStringSlice "address") ≤ 1)%nat
  ∨ cmd.viper_GetBool "no-prefix" = true →
  cmd.printCapResponse indent prototext_Format r address
  = cmd.printCapResponse indent prototext_Format r address'.
Proof.
  intros H. rewrite /cmd.printCapResponse /cmd.prefix_for.
  assert (Hc : Nat.ltb 1 (length (cmd.viper_GetStringSlice "address"))
               && negb (cmd.viper_GetBool "no-prefix") = false).
  { destruct H as [H|H].
    - apply Nat.ltb_ge in H. by rewrite H.
    - rewrite H. apply andb_false_r. }
  by rewrite Hc.
Qed.
End PrintFacts.

(** * The messages of the scan *)

Section LoggingFacts.
Context `{X : Externals}.
Implicit Types (d : Drop Regexp Code) (st : list Z * list (log_entry Regexp))
  (new : list (log_entry Regexp)).

Lemma matches_in_app new1 new2 :
  matches_in (new1 ++ new2) = (matches_in new1 + matches_in new2)%nat.
Proof. by rewrite /matches_in filter_app length_app. Qed.

Lemma failures_in_app new1 new2 :
  failures_in (new1 ++ new2) = (failures_in new1 + failures_in new2)%nat.
Proof. by rewrite /failures_in filter_app length_app. Qed.

Lemma all_matches new :
  Forall (λ m, is_match_entry m = true) new →
  matches_in new = length new ∧ failures_in new = 0%nat.
Proof.
  induction 1 as [|m new Hm _ [IH1 IH2]]; [done|].
  rewrite /matches_in /failures_in filter_cons_True // filter_cons_False.
  { by rewrite Hm. }
  rewrite /matches_in /failures_in in IH1, IH2. by rewrite /= IH1 IH2.
Qed.

Lemma match_any_log_spec msg res (s : string) (i : Z) st :
  (∀ s re, is_match_entry (msg s re) = true) →
  ∃ new, match_any_log msg res s i st
         = (match_any res s i st.1, st.2 ++ new)
         ∧ Forall (λ m, is_match_entry m = true) new
         ∧ length new = Nat.b2n (any_match res s).
Proof.
  intros Hmsg. induction res as [|re res IH]; simpl.
  { exists []. rewrite app_nil_r. by destruct st. }
  destruct (MatchString re s); [|exact IH].
  exists [msg s re]. split_and!; [done|by repeat constructor|done].
Qed.

Lemma match_any_value_log_spec res (v : value) (i : Z) st :
  ∃ new, match_any_value_log res v i st
         = (match_any_value res v i st.1, st.2 ++ new)
         ∧ Forall (λ m, is_match_entry m = true) new
         ∧ length new = Nat.b2n (any_match_value res v).
Proof.
  induction res as [|re res IH]; simpl.
  { exists []. rewrite app_nil_r. by destruct st, v. }
  destruct v as [vs| | |]; simpl in *; try exact IH.
  destruct (MatchString re vs); [|exact IH].
  exists [ValueMatched (VString vs) re].
  split_and!; [done|by repeat constructor|done].
Qed.

Lemma scan_values_log_spec d (i : Z) kvs st :
  ∃ new, scan_values_log d i kvs st = (scan_values d i kvs st.1, st.2 ++ new)
         ∧ Forall (λ m, is_match_entry m = true) new
         ∧ length new
           = sum_list
               ((λ kv, Nat.b2n (any_match (valueNames d) kv.1)
                       + Nat.b2n (any_match_value (values d) kv.2))%nat
                  <$> kvs).
Proof.
  rewrite /scan_values_log /scan_values. revert st.
  induction kvs as [|kv kvs IH]; intros st; simpl.
  { exists []. rewrite app_nil_r. by destruct st. }
  destruct (match_any_log_spec ValueNameMatched (valueNames d) kv.1 i st)
    as (n1 & E1 & Hn1 & Hl1); [done|]. rewrite E1.
  destruct (match_any_value_log_spec (values d) kv.2 i
              (match_any (valueNames d) kv.1 i st.1, st.2 ++ n1))
    as (n2 & E2 & Hn2 & Hl2). rewrite E2 /=.
  destruct (IH (match_any_value (values d) kv.2 i
                  (match_any (valueNames d) kv.1 i st.1), (st.2 ++ n1) ++ n2))
    as (n3 & E3 & Hn3 & Hl3). rewrite E3 /=.
  exists (n1 ++ n2 ++ n3). split_and!.
  - by rewrite -!app_assoc.
  - by repeat (apply Forall_app; split).
  - rewrite !length_app Hl1 Hl2 Hl3. by rewrite Nat.add_assoc.
Qed.

Lemma scan_tags_log_spec d (i : Z) kvs st :
  ∃ new, scan_tags_log d i kvs st = (scan_tags d i kvs st.1, st.2 ++ new)
         ∧ Forall (λ m, is_match_entry m = true) new
         ∧ length new
           = sum_list
               ((λ kv, Nat.b2n (any_match (tagNames d) kv.1)
                       + Nat.b2n (any_match (tags d) kv.2))%nat
                  <$> kvs).
Proof.
  rewrite /scan_tags_log /scan_tags. revert st.
  induction kvs as [|kv kvs IH]; intros st; simpl.
  { exists []. rewrite app_nil_r. by destruct st. }
  destruct (match_any_log_spec TagNameMatched (tagNames d) kv.1 i st)
    as (n1 & E1 & Hn1 & Hl1); [done|]. rewrite E1.
  destruct (match_any_log_spec TagMatched (tags d) kv.2 i
              (match_any (tagNames d) kv.1 i st.1, st.2 ++ n1))
    as (n2 & E2 & Hn2 & Hl2); [done|]. rewrite E2 /=.
  destruct (IH (match_any (tags d) kv.2 i
                  (match_any (tagNames d) kv.1 i st.1), (st.2 ++ n1) ++ n2))
    as (n3 & E3 & Hn3 & Hl3). rewrite E3 /=.
  exists (n1 ++ n2 ++ n3). split_and!.
  - by rewrite -!app_assoc.
  - by repeat (apply Forall_app; split).
  - rewrite !length_app Hl1 Hl2 Hl3. by rewrite Nat.add_assoc.
Qed.

Lemma scan_regexes_log_spec d (i : Z) e st :
  ∃ new, scan_regexes_log d i e st = (scan_regexes d i e st.1, st.2 ++ new)
         ∧ Forall (λ m, is_match_entry m = true) new
         ∧ length new = regex_marks d e.
Proof.
  rewrite /scan_regexes_log /scan_regexes /regex_marks.
  destruct (scan_values_log_spec d i (formatters.Values e) st)
    as (n1 & E1 & Hn1 & Hl1). rewrite E1.
  destruct (scan_tags_log_spec d i (formatters.Tags e)
              (scan_values d i (formatters.Values e) st.1, st.2 ++ n1))
    as (n2 & E2 & Hn2 & Hl2). rewrite E2 /=.
  exists (n1 ++ n2). split_and!.
  - by rewrite -!app_assoc.
  - by apply Forall_app.
  - rewrite length_app Hl1 Hl2. done.
Qed.

Lemma scan_event_log_spec d (i : Z) oe st :
  ∃ new, scan_event_log d i oe st = (scan_event d i oe st.1, st.2 ++ new)
         ∧ marks d oe
           = (matches_in new
              + Nat.b2n (bool_decide (condition_holds d <$> oe = Some true)))%nat
         ∧ failures_in new = Nat.b2n (condition_fails d oe).
Proof.
  destruct oe as [e|]; simpl.
  2:{ exists []. rewrite app_nil_r. by destruct st. }
  rewrite /condition_holds.
  destruct (bool_decide (Condition d ≠ "")) eqn:Ec; simpl.
  - destruct (CheckCondition (code d) e) as [[|]|err] eqn:Ech.
    + exists []. by rewrite app_nil_r.
    + destruct (scan_regexes_log_spec d i e st) as (new & E1 & Hn & Hl).
      rewrite E1. exists new. destruct (all_matches new Hn) as [-> ->].
      split_and!; [done|rewrite Hl /=; lia|done].
    + by exists [ConditionCheckFailed err].
  - destruct (scan_regexes_log_spec d i e st) as (new & E1 & Hn & Hl).
    rewrite E1. exists new. destruct (all_matches new Hn) as [-> ->].
    split_and!; [done|rewrite Hl /=; lia|done].
Qed.

Lemma scan_log_spec d (i : Z) es st :
  ∃ new, scan_log d i es st = (scan d i es st.1, st.2 ++ new)
         ∧ length (scan d i es st.1)
           = (length st.1 + matches_in new
              + length (filter (λ oe, condition_holds d <$> oe = Some true)
                          es))%nat
         ∧ failures_in new
           = length (filter (λ oe, condition_fails d oe = true) es).
Proof.
  revert i st. induction es as [|oe es IH]; intros i st; simpl.
  { exists []. rewrite app_nil_r. destruct st. split_and!; [done| |done].
    rewrite /matches_in /=. lia. }
  destruct (scan_event_log_spec d i oe st) as (n1 & E1 & Hm & Hf).
  rewrite E1.
  destruct (IH (i + 1)%Z (scan_event d i oe st.1, st.2 ++ n1))
    as (n2 & E2 & Hlen & Hf2).
  rewrite E2. exists (n1 ++ n2). simpl in Hlen |- *. split_and!.
  - by rewrite -app_assoc.
  - rewrite Hlen scan_event_spec length_app length_replicate Hm.
    rewrite matches_in_app filter_cons.
    case_decide as Hd; case_bool_decide; try done; simpl; lia.
  - rewrite failures_in_app Hf Hf2 filter_cons.
    by destruct (condition_fails d oe); case_decide.
Qed.

(** Property X12.  The messages of a run of [Apply] do not bear on what it
    marks, and they account for it: every index in the to-drop list comes with
    one message that reports a match, except those of the events that the
    condition drops, which come with none; and every failed evaluation of the
    condition comes with one message and no index. *)
Theorem scan_log_accounts_for_every_mark d es :
  ∃ log, scan_log d 0 es ([], []) = (scan d 0 es [], log)
         ∧ length (scan d 0 es [])
           = (length (filter (λ m, is_match_entry m = true) log)
              + length (filter (λ oe, condition_holds d <$> oe = Some true)
                          es))%nat
         ∧ length (filter (λ m, is_match_entry m = false) log)
           = length (filter (λ oe, condition_fails d oe = true) es).
Proof.
  destruct (scan_log_spec d 0 es ([], [])) as (log & Heq & Hlen & Hf).
  exists log. simpl in *. by split_and!.
Qed.
End LoggingFacts.

(** * Witnesses of the further properties *)

(** Property X5, witness.  One tag name matches in the second event only. *)
Lemma Apply_drops_exactly_the_marked_witness :
  let E := Literal.engine true in
  let es := of_list [Some Examples.site_a; Some Examples.debug_off; None;
                     Some Examples.site_b] in
  Forall (λ oe, (@marks E Examples.debug_only oe ≤ 1)%nat) (elems es)
  ∧ ∃ out, @Apply E Examples.debug_only es = Some out
           ∧ elems out
             = filter (λ oe, @unmarked E Examples.debug_only oe = true)
                 (elems es).
Proof.
  assert (H : Forall (λ oe, (@marks (Literal.engine true)
                               Examples.debug_only oe ≤ 1)%nat)
                [Some Examples.site_a; Some Examples.debug_off; None;
                 Some Examples.site_b]).
  { repeat constructor. }
  split; [exact H|].
  exact (@Apply_drops_exactly_the_marked (Literal.engine true)
           Examples.debug_only
           (of_list [Some Examples.site_a; Some Examples.debug_off; None;
                     Some Examples.site_b]) H).
Defined.

(** Property X6, witness. *)
Lemma Apply_twice_witness :
  let E := Literal.engine true in
  let es := of_list [Some Examples.site_a; Some Examples.debug_off] in
  let out := Slice [Some Examples.site_a] [Some Examples.debug_off] in
  Forall (λ oe, (@marks E Examples.debug_only oe ≤ 1)%nat) (elems es)
  ∧ @Apply E Examples.debug_only es = Some out
  ∧ @Apply E Examples.debug_only out = Some out.
Proof.
  assert (H : Forall (λ oe, (@marks (Literal.engine true)
                               Examples.debug_only oe ≤ 1)%nat)
                [Some Examples.site_a; Some Examples.debug_off]).
  { repeat constructor. }
  split; [exact H|]. split; [reflexivity|].
  exact (@Apply_twice (Literal.engine true) Examples.debug_only
           (of_list [Some Examples.site_a; Some Examples.debug_off])
           (Slice [Some Examples.site_a] [Some Examples.debug_off])
           H eq_refl).
Defined.

(** Property X7, witness.  The condition [true] and no pattern: every event
    goes, [nil] stays. *)
Lemma Apply_with_condition_only_witness :
  let E := Literal.engine true in
  let d := Literal.processor true (Literal.config "true" [] [] [] []) in
  tagNames d = [] ∧ tags d = [] ∧ valueNames d = [] ∧ values d = []
  ∧ elems <$> @Apply E d (of_list [Some Examples.site_a; None]) = Some [None]
  ∧ ∀ e, @drops E d e = @condition_holds E d e.
Proof.
  do 4 (split; [reflexivity|]). split; [reflexivity|].
  apply (@Apply_with_condition_only (Literal.engine true)
           (Literal.processor true (Literal.config "true" [] [] [] []))
           (of_list [Some Examples.site_a; None])); reflexivity.
Defined.

(** Property X9, witness.  Two tags, met in either order. *)
Lemma scan_regexes_any_map_order_witness :
  let E := Literal.engine true in
  let e := Examples.event [("debug_level", "on"); ("site", "a")] [] in
  let e' := Examples.event [("site", "a"); ("debug_level", "on")] [] in
  formatters.Tags e ≡ₚ formatters.Tags e'
  ∧ formatters.Values e ≡ₚ formatters.Values e'
  ∧ @scan_regexes E Examples.debug_on 0 e []
    = @scan_regexes E Examples.debug_on 0 e' [].
Proof.
  assert (Ht : [("debug_level", "on"); ("site", "a")]
               ≡ₚ [("site", "a"); ("debug_level", "on")]).
  { apply perm_swap. }
  split; [exact Ht|]. split; [reflexivity|].
  apply (@scan_regexes_any_map_order (Literal.engine true) Examples.debug_on
           (Examples.event [("debug_level", "on"); ("site", "a")] [])
           (Examples.event [("site", "a"); ("debug_level", "on")] [])
           0%Z [] Ht).
  reflexivity.
Defined.

(** Property X11, witness.  A receiver that was initialised before, with other
    patterns. *)
Lemma Init_depends_on_the_configuration_only_witness :
  let E := Literal.engine true in
  let d := Literal.config "" ["debug"] [] ["on"] [] in
  let d' := @set_tagNames E ["stale"] (@set_code E (Some "true") d) in
  @same_config E d d'
  ∧ (@Init_compile E d).2 = (@Init_compile E d').2.
Proof.
  split; [by repeat split|].
  apply (@Init_depends_on_the_configuration_only (Literal.engine true)
           (Literal.config "" ["debug"] [] ["on"] [])
           (@set_tagNames (Literal.engine true) ["stale"]
              (@set_code (Literal.engine true) (Some "true")
                 (Literal.config "" ["debug"] [] ["on"] [])))).
  by repeat split.
Defined.

(** Property X13, witness. *)
Lemma printCapResponse_prefixes_every_line_witness :
  let E := CmdExamples.two_targets in
  let r := CmdExamples.response_two in
  (1 < length (@cmd.viper_GetStringSlice E "address"))%nat
  ∧ @cmd.viper_GetBool E "no-prefix" = false
  ∧ @cmd.viper_GetString E "format" ≠ "textproto"
  ∧ ∃ out, @cmd.printCapResponse E CmdExamples.indent CmdExamples.format r
             "r2:57400" = Some out
           ∧ length out = 7%nat
           ∧ Forall (λ line, line = cmd.nl
                             ∨ String.prefix ("[" +:+ "r2:57400" +:+ "] ") line
                               = true) out.
Proof.
  split; [simpl; lia|]. split; [reflexivity|]. split; [discriminate|].
  eexists. split; [reflexivity|]. split; [reflexivity|].
  apply (@printCapResponse_prefixes_every_line CmdExamples.two_targets
           CmdExamples.indent CmdExamples.format
           CmdExamples.response_two "r2:57400").
  - simpl; lia.
  - reflexivity.
  - discriminate.
  - reflexivity.
Defined.

(** Property X14, witness. *)
Lemma printCapResponse_without_prefix_witness :
  let E := CmdExamples.one_target in
  let r := CmdExamples.response_one in
  ((length (@cmd.viper_GetStringSlice E "address") ≤ 1)%nat
   ∨ @cmd.viper_GetBool E "no-prefix" = true)
  ∧ @cmd.printCapResponse E CmdExamples.indent CmdExamples.format r "r1:57400"
    = @cmd.printCapResponse E CmdExamples.indent CmdExamples.format r "other".
Proof.
  split; [left; simpl; lia|].
  apply (@printCapResponse_without_prefix CmdExamples.one_target
           CmdExamples.indent CmdExamples.format).
  left. simpl. lia.
Defined.
